(** * StarRailAutoProxy: image matching, world graph and the map-scaling operation

    A shallow embedding of
      - [basic/img/cv2_utils.py]  ([match_template], [find_max_circle],
        [concat_vertically]),
      - [sr/constants/map.py]     ([Planet], [Region] and the region table),
      - [sr/operation/unit/scale_large_map.py] ([ScaleLargeMap]),
    and the properties of these functions.

    Python exceptions are values of the error monad [res]; numpy arrays are
    lists of rows; floating-point scores are IEEE values ([spec_float]) with
    the comparison numpy applies to them. *)

From Stdlib Require Import ZArith QArith List Bool Lia String Ascii PeanoNat.
From Stdlib Require Import DecimalString DecimalPos FinFun Sorted Permutation.
From Stdlib Require Import Floats.SpecFloat.
Import ListNotations.
Close Scope Q_scope.

Set Implicit Arguments.

(** ** Exceptions *)

Inductive exn : Type :=
| cv2_error        (* an assertion of the OpenCV library failed *)
| IndexError       (* array index out of range *)
| AttributeError   (* attribute access on [None], or a name a module lacks *)
| KeyError.

Inductive res (A : Type) : Type :=
| Ok (a : A)
| Raise (e : exn).

Arguments Ok {A} a.
Arguments Raise {A} e.

Definition bind {A B : Type} (m : res A) (k : A -> res B) : res B :=
  match m with
  | Ok a => k a
  | Raise e => Raise e
  end.

Notation "x <- m ;; k" := (bind m (fun x => k))
  (at level 61, m at next level, right associativity).

Fixpoint mapM {A B : Type} (f : A -> res B) (l : list A) : res (list B) :=
  match l with
  | [] => Ok []
  | a :: l' => b <- f a ;; bs <- mapM f l' ;; Ok (b :: bs)
  end.

(** ** Images and scores *)

(** A pixel is the list of its channel values; an image is the list of its
    rows, so [img.shape[0]] is the number of rows (the height) and
    [img.shape[1]] the number of columns (the width). *)
Definition Pixel : Type := list Z.
Definition Image : Type := list (list Pixel).
Definition Mask : Type := list (list Z).

Definition shape0 {A : Type} (img : list (list A)) : nat := List.length img.
Definition shape1 {A : Type} (img : list (list A)) : nat := List.length (hd [] img).

(** The entries of the array [cv2.matchTemplate] returns. *)
Definition score : Type := spec_float.

(** [a >= b] on floats, as numpy evaluates it: false when either is NaN.
    Both are values of one float format (numpy converts the Python float
    [threshold] to the type of the score map before it compares). *)
Definition float_ge (a b : score) : bool := SFleb b a.

(** A Python float is a binary64 value. In [result >= threshold], with
    [result] the float32 score map and [threshold] a Python float, numpy
    converts the threshold to float32, rounding to the nearest value (ties to
    even), and compares in float32: [match_template] below takes the
    threshold so converted. *)
Definition python_float : Type := spec_float.

Definition np_float32 (v : python_float) : score :=
  match v with
  | S754_finite s m e => binary_round 24 128 s m e
  | _ => v
  end.

(** The exact value of a finite float, and [a >= b] for floats of any two
    formats, decided on the exact values: the order in which a float32
    confidence and a Python float stand as numbers. ([SFleb] compares
    exponents first and is the order of the values within one format only.) *)
Definition float_value (v : spec_float) : Q :=
  match v with
  | S754_finite s m e =>
      Qmult (inject_Z (if s then Zneg m else Zpos m)) (Qpower (2 # 1)%Q e)
  | _ => 0%Q
  end.

Definition value_ge (a b : spec_float) : bool :=
  match a, b with
  | S754_finite _ _ _, S754_finite _ _ _ =>
      Qle_bool (float_value b) (float_value a)
  | _, _ => SFleb b a
  end.

(** [np.isfinite] *)
Definition np_isfinite (v : score) : bool :=
  match v with
  | S754_nan | S754_infinity _ => false
  | S754_zero _ | S754_finite _ _ _ => true
  end.

(** [result[r, c]] *)
Definition index2 {A : Type} (a : list (list A)) (r c : nat) : res A :=
  match nth_error a r with
  | None => Raise IndexError
  | Some row =>
      match nth_error row c with
      | None => Raise IndexError
      | Some v => Ok v
      end
  end.

(** [np.where(cond)] for a two-dimensional array: the row indices and the
    column indices of the true entries, in row-major order. *)
Fixpoint where_row (cond : score -> bool) (r c : nat) (row : list score)
  : list (nat * nat) :=
  match row with
  | [] => []
  | v :: row' =>
      if cond v then (r, c) :: where_row cond r (S c) row'
      else where_row cond r (S c) row'
  end.

Fixpoint where_rows (cond : score -> bool) (r : nat) (a : list (list score))
  : list (nat * nat) :=
  match a with
  | [] => []
  | row :: a' => where_row cond r 0 row ++ where_rows cond (S r) a'
  end.

Definition np_where (cond : score -> bool) (a : list (list score))
  : list nat * list nat :=
  let hits := where_rows cond 0 a in
  (map fst hits, map snd hits).

(** ** MatchResult and MatchResultList *)

(** Modelled from the spec: class [MatchResult] of [basic.img] is not among
    the sources; it has the fields [confidence], [x], [y], [w], [h], and its
    constructor takes them in this order (the order in which [show_image]
    and [match_template] use them). *)
Record MatchResult : Type := mkMatchResult {
  confidence : score;
  x : Z;
  y : Z;
  w : Z;
  h : Z
}.

(** Modelled from the spec: [MatchResultList] of [basic.img] is an ordered
    collection of [MatchResult] grown by [append]. *)
Definition MatchResultList : Type := list MatchResult.

(** ** cv2.matchTemplate *)

Section Matcher.

(** The numerics of the external primitive: [ncc image templ mask cx cy] is
    the [TM_CCOEFF_NORMED] score of [templ] placed with its top-left corner
    at column [cx], row [cy] of [image]. *)
Variable ncc : Image -> Image -> option Mask -> nat -> nat -> score.

Definition score_map (image templ : Image) (mask : option Mask)
  : list (list score) :=
  map (fun cy =>
         map (fun cx => ncc image templ mask cx cy)
             (seq 0 (shape1 image - shape1 templ + 1)))
      (seq 0 (shape0 image - shape0 templ + 1)).

(** The size contract of [cv2.matchTemplate]: with a mask the template must
    fit into the image; without one the two are swapped when the image is
    smaller in some dimension, and then it must be no larger in either.
    The score map has one entry per placement. *)
Definition cv2_matchTemplate (image templ : Image) (mask : option Mask)
  : res (list (list score)) :=
  match mask with
  | Some m =>
      if negb ((shape0 m =? shape0 templ) && (shape1 m =? shape1 templ))
      then Raise cv2_error
      else if (shape0 templ <=? shape0 image) && (shape1 templ <=? shape1 image)
      then Ok (score_map image templ mask)
      else Raise cv2_error
  | None =>
      let needswap :=
        (shape0 image <? shape0 templ) || (shape1 image <? shape1 templ) in
      if needswap then
        if (shape0 image <=? shape0 templ) && (shape1 image <=? shape1 templ)
        then Ok (score_map templ image None)
        else Raise cv2_error
      else Ok (score_map image templ None)
  end.

(** ** match_template *)

(** [tx] is [template.shape[0]] and [ty] is [template.shape[1]]; every
    location [pt = (column, row)] kept by [np.where] gives
    [MatchResult(result[pt[1], pt[0]], pt[0], pt[1], tx, ty)]. An error of
    [cv2.matchTemplate] propagates. [threshold] is the threshold in the
    format of the score map: for a caller's Python float [t] it is
    [np_float32 t]. *)
Definition match_template (source template : Image) (threshold : score)
           (mask : option Mask) (ignore_inf : bool) : res MatchResultList :=
  let ty := shape1 template in
  let tx := shape0 template in
  result <- cv2_matchTemplate source template mask ;;
  let filtered_locations :=
    np_where (fun v => float_ge v threshold
                       && (if ignore_inf then np_isfinite v else true))
             result in
  mapM (fun pt : nat * nat =>
          confidence <- index2 result (snd pt) (fst pt) ;;
          Ok (mkMatchResult confidence (Z.of_nat (fst pt)) (Z.of_nat (snd pt))
                            (Z.of_nat tx) (Z.of_nat ty)))
       (combine (snd filtered_locations) (fst filtered_locations)).

(** [a > b] on floats. *)
Definition float_gt (a b : score) : bool := SFltb b a.

(** The loop of [concat_vertically] that keeps the result of highest
    confidence: a later result replaces the current one only when its
    confidence is strictly greater. *)
Definition keep_better (r : option MatchResult) (i : MatchResult)
  : option MatchResult :=
  match r with
  | None => Some i
  | Some r0 => if float_gt (confidence i) (confidence r0) then Some i else r
  end.

Definition best_result (result : MatchResultList) : option MatchResult :=
  fold_left keep_better result None.

(** Python slicing of the rows of an array: a negative bound counts from the
    end, and bounds are clipped to the array. *)
Definition slice_index (len : nat) (i : Z) : nat :=
  if (i <? 0)%Z then Z.to_nat (Z.max 0 (i + Z.of_nat len))
  else Nat.min (Z.to_nat i) len.

Definition rows_slice {A : Type} (a : list A) (start stop : Z) : list A :=
  let lo := slice_index (List.length a) start in
  let hi := slice_index (List.length a) stop in
  firstn (hi - lo) (skipn lo a).

Definition rows_from {A : Type} (a : list A) (start : Z) : list A :=
  skipn (slice_index (List.length a) start) a.

(** [cv2.vconcat([a, b])]: the rows of [a] followed by those of [b]; the two
    must have the same number of columns. *)
Definition cv2_vconcat (a b : Image) : res Image :=
  match b with
  | [] => Ok a
  | _ => if shape1 a =? shape1 b then Ok (a ++ b) else Raise cv2_error
  end.

(** The threshold [0.5] of [concat_vertically], as a binary32 value. *)
Definition f32_half : score := S754_finite false 8388608 (-24).

(** [r.y] on [r = None], when nothing matched, is an [AttributeError]. *)
Definition concat_vertically (img next_img : Image) (decision_height : Z)
  : res Image :=
  let next_part := rows_slice next_img 0 decision_height in
  result <- match_template img next_part f32_half None false ;;
  match best_result result with
  | None => Raise AttributeError
  | Some r =>
      let h := Z.of_nat (shape0 img) in
      let overlap_h := (h - y r)%Z in
      let extra_part := rows_from next_img (overlap_h + 1) in
      cv2_vconcat img extra_part
  end.

End Matcher.

(** ** find_max_circle *)

(** A circle as [cv2.HoughCircles] reports it: centre and radius, float32
    values, here the rationals they denote. *)
Record Circle : Type := mkCircle {
  cx : Q;
  cy : Q;
  cr : Q
}.

(** [np.around]: to the nearest integer, halves to the even one. *)
Definition np_around (q : Q) : Z :=
  let n := Qnum q in
  let d := Zpos (Qden q) in
  let fl := (n / d)%Z in
  let r2 := (2 * (n mod d))%Z in
  if (r2 <? d)%Z then fl
  else if (d <? r2)%Z then (fl + 1)%Z
  else if Z.even fl then fl else (fl + 1)%Z.

(** [np.uint16] of an integral value: reduction modulo 2^16. *)
Definition np_uint16 (z : Z) : Z := (z mod 65536)%Z.

Definition round_circle (c : Circle) : Z * Z * Z :=
  (np_uint16 (np_around (cx c)), np_uint16 (np_around (cy c)),
   np_uint16 (np_around (cr c))).

(** One iteration of the loop that keeps the circle of largest radius. *)
Definition keep_larger (acc : Z * Z * Z) (circle : Z * Z * Z) : Z * Z * Z :=
  let '(_, _, tr) := acc in
  let '(_, _, r) := circle in
  if (tr <? r)%Z then circle else acc.

Section CircleDetection.

(** [cv2.cvtColor(image, cv2.COLOR_BGR2GRAY)]; it raises on an image that is
    not a colour image. *)
Variable cvtColor_BGR2GRAY : Image -> res (list (list Z)).

(** The numerics of the gradient Hough transform: the circles it responds to
    in a gray image for accumulator ratio [dp] and minimum centre distance
    [minDist], strongest first, before the radius bounds of the call are
    applied. *)
Variable hough_gradient : list (list Z) -> Q -> Q -> list Circle.

(** [cv2.HoughCircles(gray, HOUGH_GRADIENT, dp, minDist, minRadius=, maxRadius=)]:
    only circles whose radius lies within the bounds are reported, and the
    result is [None] when there is none. *)
Definition cv2_HoughCircles (gray : list (list Z)) (dp minDist : Q)
           (minRadius maxRadius : Z) : option (list Circle) :=
  match filter (fun c => Qle_bool (inject_Z minRadius) (cr c)
                         && Qle_bool (cr c) (inject_Z maxRadius))
               (hough_gradient gray dp minDist) with
  | [] => None
  | kept => Some kept
  end.

(** [show_result] only draws the circles into windows and is left out. *)
Definition find_max_circle (image : Image) : res (Z * Z * Z) :=
  gray <- cvtColor_BGR2GRAY image ;;
  match cv2_HoughCircles gray (12 # 10) (100 # 1) 160 200 with
  | None => Ok (0, 0, 0)%Z
  | Some circles =>
      Ok (fold_left keep_larger (map round_circle circles) (0, 0, 0)%Z)
  end.

End CircleDetection.

(** ** The world graph of [sr/constants/map.py] *)

Open Scope string_scope.

Module Planet.
Record t : Type := mk {
  id : string;   (* used for folder names *)
  cn : string    (* Chinese name, used by OCR *)
}.
End Planet.

Definition P01_KZJ : Planet.t := Planet.mk "kjzht" "空间站".
Definition P02_YYL : Planet.t := Planet.mk "yll6" "雅利洛".
Definition P03_XZLF : Planet.t := Planet.mk "zxlf" "罗浮".

Definition PLANET_LIST : list Planet.t := [P01_KZJ; P02_YYL; P03_XZLF].

(** The [planet] argument of a [Region] is a [Planet] object or [None]. *)
Module Region.
Record t : Type := mk {
  id : string;
  cn : string;
  planet : option Planet.t;
  level : Z
}.
End Region.

(** ['%d' % n] *)
Definition format_d (n : Z) : string := NilZero.string_of_int (Z.to_int n).

(** [self.planet.id]: an [AttributeError] when the planet is [None]. *)
Definition planet_id (self : Region.t) : res string :=
  match Region.planet self with
  | Some p => Ok (Planet.id p)
  | None => Raise AttributeError
  end.

Definition get_pr_id (self : Region.t) : res string :=
  pid <- planet_id self ;;
  Ok (pid ++ "-" ++ Region.id self).

Definition get_rl_id (self : Region.t) : string :=
  if (Region.level self =? 0)%Z then Region.id self
  else if (Region.level self >? 0)%Z
  then Region.id self ++ "-l" ++ format_d (Region.level self)
  else Region.id self ++ "-b" ++ format_d (Z.abs (Region.level self)).

Definition get_prl_id (self : Region.t) : res string :=
  if (Region.level self =? 0)%Z then
    pid <- planet_id self ;; Ok (pid ++ "-" ++ Region.id self)
  else if (Region.level self >? 0)%Z then
    pid <- planet_id self ;;
    Ok (pid ++ "-" ++ Region.id self ++ "-l" ++ format_d (Region.level self))
  else
    pid <- planet_id self ;;
    Ok (pid ++ "-" ++ Region.id self ++ "-b"
            ++ format_d (Z.abs (Region.level self))).

Definition another_floor (self : Region.t) : bool :=
  negb (Region.level self =? 0)%Z.

(** The identity key of a region: [(planet.id, region.id, level)]. *)
Definition region_key (self : Region.t) : res (string * string * Z) :=
  pid <- planet_id self ;;
  Ok (pid, Region.id self, Region.level self).

Definition R0_GJCX : Region.t := Region.mk "gjcx" "观景车厢" (None) 0.
Definition P01_R01_ZKCD : Region.t := Region.mk "zkcd" "主控舱段" (Some P01_KZJ) 0.
Definition P01_R02_JZCD : Region.t := Region.mk "jzcd" "基座舱段" (Some P01_KZJ) 0.
Definition P01_R03_SRCD_B1 : Region.t := Region.mk "srcd" "收容舱段" (Some P01_KZJ) (-1).
Definition P01_R03_SRCD_L1 : Region.t := Region.mk "srcd" "收容舱段" (Some P01_KZJ) 1.
Definition P01_R03_SRCD_L2 : Region.t := Region.mk "srcd" "收容舱段" (Some P01_KZJ) 2.
Definition P01_R04_ZYCD_L1 : Region.t := Region.mk "zycd" "支援舱段" (Some P01_KZJ) 1.
Definition P01_R04_ZYCD_L2 : Region.t := Region.mk "zycd" "支援舱段" (Some P01_KZJ) 2.
Definition P02_R01_L1 : Region.t := Region.mk "xzq" "行政区" (Some P02_YYL) 1.
Definition P02_R01_B1 : Region.t := Region.mk "xzq" "行政区" (Some P02_YYL) (-1).
Definition P02_R02 : Region.t := Region.mk "cjxy" "城郊雪原" (Some P02_YYL) 0.
Definition P02_R03 : Region.t := Region.mk "bytl" "边缘通路" (Some P02_YYL) 0.
Definition P02_R04 : Region.t := Region.mk "twjq" "铁卫禁区" (Some P02_YYL) 0.
Definition P02_R05 : Region.t := Region.mk "cxhl" "残响回廊" (Some P02_YYL) 0.
Definition P02_R06 : Region.t := Region.mk "ydl" "永冬岭" (Some P02_YYL) 0.
Definition P02_R07 : Region.t := Region.mk "zwzz" "造物之柱" (Some P02_YYL) 0.
Definition P02_R08_L2 : Region.t := Region.mk "jwqsyc" "旧武器试验场" (Some P02_YYL) 2.
Definition P02_R09 : Region.t := Region.mk "pyz" "磐岩镇" (Some P02_YYL) 0.
Definition P02_R10 : Region.t := Region.mk "dkq" "大矿区" (Some P02_YYL) 0.
Definition P02_R11_L1 : Region.t := Region.mk "mdz" "铆钉镇" (Some P02_YYL) 1.
Definition P02_R11_L2 : Region.t := Region.mk "mdz" "铆钉镇" (Some P02_YYL) 2.

(** The [Region] constants of the module, in the order of their definition. *)
Definition REGION_CONSTANTS : list Region.t :=
  [R0_GJCX; P01_R01_ZKCD; P01_R02_JZCD; P01_R03_SRCD_B1;
   P01_R03_SRCD_L1; P01_R03_SRCD_L2; P01_R04_ZYCD_L1; P01_R04_ZYCD_L2;
   P02_R01_L1; P02_R01_B1; P02_R02; P02_R03;
   P02_R04; P02_R05; P02_R06; P02_R07;
   P02_R08_L2; P02_R09; P02_R10; P02_R11_L1;
   P02_R11_L2].

(** The dict [PLANET_2_REGION], keyed by planet id. *)
Definition PLANET_2_REGION : list (string * list Region.t) :=
  [ (Planet.id P01_KZJ,
     [P01_R01_ZKCD; P01_R02_JZCD; P01_R03_SRCD_L1; P01_R03_SRCD_L2;
      P01_R03_SRCD_B1; P01_R04_ZYCD_L1; P01_R04_ZYCD_L2]);
    (Planet.id P02_YYL,
     [P02_R01_L1; P02_R01_B1; P02_R02; P02_R03; P02_R04; P02_R05; P02_R06;
      P02_R07; P02_R08_L2; P02_R09; P02_R10; P02_R11_L1; P02_R11_L2]);
    (Planet.id P03_XZLF, []) ].

(** [PLANET_2_REGION[key]] *)
Fixpoint dict_get {V : Type} (d : list (string * V)) (key : string) : res V :=
  match d with
  | [] => Raise KeyError
  | (k, v) :: d' => if String.eqb k key then Ok v else dict_get d' key
  end.

Definition get_region_by_cn (cn : string) (planet : Planet.t)
           (level : option Z) : res (option Region.t) :=
  regions <- dict_get PLANET_2_REGION (Planet.id planet) ;;
  Ok (find (fun i =>
              String.eqb (Region.cn i) cn
              && match level with
                 | None => true
                 | Some l => (Region.level i =? l)%Z
                 end)
           regions).

Close Scope string_scope.

(** ** The operation [ScaleLargeMap] *)

(** Modelled from the spec: the round outcome codes of class [Operation],
    which is not among the sources; four distinct codes. *)
Inductive round_result : Type := SUCCESS | RETRY | WAIT | FAIL.

(** Class [Rect] of [basic] is not among the sources: [Rect(x1, y1, x2, y2)]
    is given by its corners, and [left_top.tuple()] is [(x1, y1)]. *)
Record Rect : Type := mkRect {
  rect_x1 : Z;
  rect_y1 : Z;
  rect_x2 : Z;
  rect_y2 : Z
}.

Definition left_top (r : Rect) : Z * Z := (rect_x1 r, rect_y1 r).

(** Modelled from the spec: the property [max] of [MatchResultList], the entry
    of maximum confidence, [None] for an empty list. *)
Definition MatchResultList_max (l : MatchResultList) : option MatchResult :=
  best_result l.

(** The names [basic/img/cv2_utils.py] binds at module level, in the order
    of the file: what it imports, then the functions it defines. *)
Definition cv2_utils_dir : list string :=
  [ "math"; "Union"; "List"; "cv2"; "np"; "os"; "Image"; "ImageLike";
    "MatchResult"; "MatchResultList"; "log";
    "read_image"; "convert_source"; "show_image"; "image_rotate";
    "convert_png_and_save"; "mark_area_as_transparent"; "mark_area_as_color";
    "match_template"; "find_max_circle"; "concat_vertically"; "is_same_image";
    "binary_with_white_alpha"; "show_overlap" ]%string.

(** [module.name] for a module that binds the names [dir]: the [value] bound
    to [name], and [AttributeError] when the module binds no such name. *)
Definition module_getattr {A : Type} (dir : list string) (name : string)
           (value : A) : res A :=
  if existsb (String.eqb name) dir then Ok value else Raise AttributeError.

Module ScaleLargeMap.
Section Op.

(** The state of the game and of its window, as the controller sees it. *)
Variable World : Type.
(** [self.screenshot()]: the frame captured in the current state. *)
Variable screenshot : World -> Image.
(** [self.ctx.controller.click(pos.center)], given the result whose centre is
    clicked: whether the click was sent, and the state after it. *)
Variable controller_click : World -> MatchResult -> bool * World.
(** [time.sleep(0.5)] *)
Variable sleep_half_second : World -> World.
(** What the name [crop_image] of [cv2_utils] would be bound to (first
    component of its result); [get_click_pos] reaches it through the
    attribute lookup on the module only. *)
Variable crop_image : Image -> Rect -> Image.
(** [self.ctx.im.match_template(source, template_id, template_type=...)] *)
Variable im_match_template : Image -> string -> string -> MatchResultList.
(** The fields of the base class [Operation], its constructor (retry budget
    and the scale shown in the operation's name) and its [on_resume]. *)
Variable OperationBase : Type.
Variable Operation_init : Z -> Z -> OperationBase.
Variable Operation_on_resume : OperationBase -> OperationBase.

Record t : Type := mk {
  op : OperationBase;
  scale : Z;
  click_times : Z;
  pos : option MatchResult
}.

Definition rect : Rect := mkRect 600 960 1040 1020.

Definition init (scale : Z) : t :=
  mk (Operation_init 5 scale) scale 0 None.

(** The screenshot is taken first; [cv2_utils.crop_image] is then looked up
    in the module [cv2_utils], and the lookup raises when the module has no
    such name. *)
Definition get_click_pos (world : World) (self : t)
  : res (option MatchResult) :=
  let screen := screenshot world in
  let template_id := if (scale self >? 0)%Z then "plus"%string else "minus"%string in
  let '(x1, y1) := left_top rect in
  crop <- module_getattr cv2_utils_dir "crop_image"%string crop_image ;;
  let source := crop screen rect in
  let result := im_match_template source template_id "origin"%string in
  match MatchResultList_max result with
  | Some m =>
      Ok (Some (mkMatchResult (confidence m) (x m + x1) (y m + y1) (w m) (h m)))
  | None => Ok None
  end.

(** One round: the state of the game and of the operation after it, and
    what the call returns or raises. An exception of [get_click_pos] leaves
    the method before [self.pos] is assigned. *)
Definition _execute_one_round (world : World) (self : t)
  : World * t * res round_result :=
  match (match pos self with
         | None =>
             p <- get_click_pos world self ;;
             Ok (mk (op self) (scale self) (click_times self) p)
         | Some _ => Ok self
         end) with
  | Raise e => (world, self, Raise e)
  | Ok self1 =>
      match pos self1 with
      | Some p =>
          let world1 := snd (controller_click world p) in
          let world2 := sleep_half_second world1 in
          let self2 := mk (op self1) (scale self1) (click_times self1 + 1)
                          (pos self1) in
          if (click_times self2 =? Z.abs (scale self2))%Z
          then (world2, self2, Ok SUCCESS)
          else (world2, self2, Ok WAIT)
      | None => (world, self1, Ok RETRY)
      end
  end.

(** [on_resume]: the operation after the call, and whether the call returned
    or raised. An exception of [get_click_pos] leaves the method before
    [self.pos] is assigned and before [super().on_resume()]. *)
Definition on_resume (world : World) (self : t) : t * res unit :=
  match get_click_pos world self with
  | Raise e => (self, Raise e)
  | Ok p =>
      let self1 := mk (op self) (scale self) (click_times self) p in
      (mk (Operation_on_resume (op self1)) (scale self1) (click_times self1)
          (pos self1),
       Ok tt)
  end.

(** Successive calls of [_execute_one_round] on one operation: [worlds]
    gives the state of the game at the start of each call (what happens
    between two calls is up to the game and to the driver); the outcome of
    every call is collected. *)
Fixpoint rounds (worlds : list World) (self : t) : list (res round_result) :=
  match worlds with
  | [] => []
  | world :: worlds' =>
      let '(_, self', r) := _execute_one_round world self in
      r :: rounds worlds' self'
  end.

End Op.
End ScaleLargeMap.

(** ** Further definitions for [match_template] and [ScaleLargeMap] *)

(** The results of [match_template] read off a score map row by row: one
    result per entry that satisfies [cond], with the entry as confidence, its
    column as [x] and its row as [y]. The function itself goes through
    [np.where] and indexes the score map again; the two are shown equal. *)
Fixpoint row_results (cond : score -> bool) (tx ty : nat) (r c : nat)
         (row : list score) : MatchResultList :=
  match row with
  | [] => []
  | v :: row' =>
      if cond v
      then mkMatchResult v (Z.of_nat c) (Z.of_nat r) (Z.of_nat tx) (Z.of_nat ty)
           :: row_results cond tx ty r (S c) row'
      else row_results cond tx ty r (S c) row'
  end.

Fixpoint rows_results (cond : score -> bool) (tx ty : nat) (r : nat)
         (a : list (list score)) : MatchResultList :=
  match a with
  | [] => []
  | row :: a' =>
      row_results cond tx ty r 0 row ++ rows_results cond tx ty (S r) a'
  end.

(** The order of discovery: by row, and by column within a row. *)
Definition before (m1 m2 : MatchResult) : Prop :=
  (y m1 < y m2)%Z \/ (y m1 = y m2 /\ (x m1 < x m2)%Z).

(** The state of a [ScaleLargeMap] operation after successive rounds (see
    [ScaleLargeMap.rounds] for the outcomes of the rounds). *)
Section ScaleLargeMapRun.

Variable World : Type.
Variable screenshot : World -> Image.
Variable controller_click : World -> MatchResult -> bool * World.
Variable sleep_half_second : World -> World.
Variable crop_image : Image -> Rect -> Image.
Variable im_match_template : Image -> string -> string -> MatchResultList.
Variable OperationBase : Type.

Fixpoint rounds_state (worlds : list World) (self : ScaleLargeMap.t OperationBase)
  : ScaleLargeMap.t OperationBase :=
  match worlds with
  | [] => self
  | world :: worlds' =>
      let '(_, self', _) :=
        ScaleLargeMap._execute_one_round screenshot controller_click
          sleep_half_second crop_image im_match_template world self in
      rounds_state worlds' self'
  end.

End ScaleLargeMapRun.

(** The outcomes of the rounds among [outcomes] in which a click was sent,
    in order: a round that raises or returns [RETRY] sends none. *)
Definition click_outcomes (outcomes : list (res round_result))
  : list round_result :=
  flat_map (fun o => match o with
                     | Ok RETRY | Raise _ => []
                     | Ok r => [r]
                     end) outcomes.

(** The number of rounds among [outcomes] in which a click was sent. *)
Definition click_rounds (outcomes : list (res round_result)) : nat :=
  List.length (click_outcomes outcomes).

(** ** The rest of [sr/constants/map.py] *)

Open Scope string_scope.

Definition get_planet_by_cn (cn : string) : option Planet.t :=
  find (fun i => String.eqb (Planet.cn i) cn) PLANET_LIST.

(** [region.planet] may be [None]; then [planet.id] inside
    [get_region_by_cn] is an [AttributeError]. *)
Definition region_with_another_floor (region : Region.t) (level : option Z)
  : res (option Region.t) :=
  match Region.planet region with
  | None => Raise AttributeError
  | Some planet => get_region_by_cn (Region.cn region) planet level
  end.

Module TransportPoint.
Record t : Type := mk {
  id : string;            (* used to find images *)
  cn : string;            (* Chinese name, used by OCR *)
  region : Region.t;
  planet : option Planet.t;
  template_id : string;
  lm_pos : Z * Z          (* position on the large map *)
}.

(** [__init__]: the planet is the one of the region. *)
Definition init (id cn : string) (region : Region.t) (template_id : string)
           (lm_pos : Z * Z) : t :=
  mk id cn region (Region.planet region) template_id lm_pos.
End TransportPoint.

Definition P01_R01_SP01 : TransportPoint.t :=
  TransportPoint.init EmptyString EmptyString P01_R01_ZKCD "mm_tp_03" (529, 231)%Z.
Definition P01_R01_SP02 : TransportPoint.t :=
  TransportPoint.init EmptyString EmptyString P01_R01_ZKCD "mm_tp_03" (592, 691)%Z.
Definition P01_R01_SP03_HTBGS : TransportPoint.t :=
  TransportPoint.init "htdbgs" "办公室" P01_R01_ZKCD "mm_tp_04" (245, 796)%Z.
Definition P01_R01_SP04 : TransportPoint.t :=
  TransportPoint.init EmptyString EmptyString P01_R01_ZKCD "mm_sp_01" (228, 744)%Z.
Definition P01_R01_SP05 : TransportPoint.t :=
  TransportPoint.init EmptyString EmptyString P01_R01_ZKCD "mm_sp_02" (562, 837)%Z.
Definition P01_R01_SP06 : TransportPoint.t :=
  TransportPoint.init EmptyString EmptyString P01_R01_ZKCD "mm_sp_04" (535, 628)%Z.
Definition P01_R02_SP01_JKS : TransportPoint.t :=
  TransportPoint.init "jks" "监控室" P01_R02_JZCD "mm_tp_03" (635, 143)%Z.
Definition P01_R02_SP02 : TransportPoint.t :=
  TransportPoint.init EmptyString EmptyString P01_R02_JZCD "mm_tp_03" (493, 500)%Z.
Definition P01_R02_SP03 : TransportPoint.t :=
  TransportPoint.init EmptyString EmptyString P01_R02_JZCD "mm_tp_06" (540, 938)%Z.
Definition P01_R02_SP04 : TransportPoint.t :=
  TransportPoint.init EmptyString EmptyString P01_R02_JZCD "mm_tp_06" (556, 986)%Z.
Definition P01_R03_SP01_KZZXW : TransportPoint.t :=
  TransportPoint.init "kzzxw" "控制中心外" P01_R03_SRCD_L1 "mm_tp_03" (365, 360)%Z.
Definition P01_R03_SP02 : TransportPoint.t :=
  TransportPoint.init "zt" "中庭" P01_R03_SRCD_L1 "mm_tp_03" (619, 331)%Z.
Definition P01_R03_SP03 : TransportPoint.t :=
  TransportPoint.init EmptyString EmptyString P01_R03_SRCD_L2 "mm_tp_03" (758, 424)%Z.
Definition P01_R03_SP04 : TransportPoint.t :=
  TransportPoint.init EmptyString EmptyString P01_R03_SRCD_L2 "mm_tp_03" (1033, 495)%Z.
Definition P01_R03_SP05_HMZL : TransportPoint.t :=
  TransportPoint.init "hmzl" "毁灭之蕾" P01_R03_SRCD_L1 "mm_tp_07" (309, 310)%Z.
Definition P01_R03_SP06 : TransportPoint.t :=
  TransportPoint.init EmptyString EmptyString P01_R03_SRCD_L1 "mm_tp_09" (840, 352)%Z.
Definition P01_R03_SP07 : TransportPoint.t :=
  TransportPoint.init EmptyString EmptyString P01_R03_SRCD_L1 "mm_sp_02" (600, 349)%Z.
Definition P01_R04_SP01 : TransportPoint.t :=
  TransportPoint.init "dls" "电力室" P01_R04_ZYCD_L2 "mm_tp_03" (155, 380)%Z.
Definition P01_R04_SP02 : TransportPoint.t :=
  TransportPoint.init "bjkf" "备件库房" P01_R04_ZYCD_L2 "mm_tp_03" (424, 206)%Z.
Definition P01_R04_SP03 : TransportPoint.t :=
  TransportPoint.init "yt" "月台" P01_R04_ZYCD_L2 "mm_tp_03" (778, 370)%Z.
Definition P01_R04_SP04 : TransportPoint.t :=
  TransportPoint.init "chzl" "存护之蕾" P01_R04_ZYCD_L2 "mm_tp_07" (457, 288)%Z.
Definition P01_R04_SP05 : TransportPoint.t :=
  TransportPoint.init "tkdt" "太空电梯" P01_R04_ZYCD_L2 "mm_sp_02" (105, 345)%Z.
Definition P02_R02_SP01 : TransportPoint.t :=
  TransportPoint.init "cp" "长坡" P02_R02 "mm_tp_03" (1035, 319)%Z.
Definition P02_R02_SP02 : TransportPoint.t :=
  TransportPoint.init "zld" "着陆点" P02_R02 "mm_tp_03" (1283, 367)%Z.
Definition P02_R02_SP03 : TransportPoint.t :=
  TransportPoint.init "xlzl" "巡猎之蕾" P02_R02 "mm_tp_07" (946, 244)%Z.
Definition P02_R02_SP04 : TransportPoint.t :=
  TransportPoint.init "hyzl" "回忆之蕾" P02_R02 "mm_tp_08" (1098, 391)%Z.
Definition P02_R02_SP05 : TransportPoint.t :=
  TransportPoint.init "xzq" "行政区" P02_R02 "mm_sp_02" (444, 109)%Z.
Definition P02_R02_SP06 : TransportPoint.t :=
  TransportPoint.init "lk" "玲可" P02_R02 "mm_sp_03" (1032, 342)%Z.
Definition P02_R03_SP01 : TransportPoint.t :=
  TransportPoint.init "hcgc" "候车广场" P02_R03 "mm_tp_03" (598, 832)%Z.
Definition P02_R03_SP02 : TransportPoint.t :=
  TransportPoint.init "xxgc" "休闲广场" P02_R03 "mm_tp_03" (690, 480)%Z.
Definition P02_R03_SP03 : TransportPoint.t :=
  TransportPoint.init "gdjz" "歌德" P02_R03 "mm_tp_03" (811, 259)%Z.
Definition P02_R03_SP04 : TransportPoint.t :=
  TransportPoint.init "hgzx" "幻光之形" P02_R03 "mm_tp_06" (450, 840)%Z.
Definition P02_R03_SP05 : TransportPoint.t :=
  TransportPoint.init "frzl" "丰饶之蕾" P02_R03 "mm_tp_07" (659, 509)%Z.
Definition P02_R03_SP06 : TransportPoint.t :=
  TransportPoint.init "ytzl" "以太之蕾" P02_R03 "mm_tp_08" (596, 194)%Z.
Definition P02_R05_SP01 : TransportPoint.t :=
  TransportPoint.init "zcly" "筑城领域" P02_R05 "mm_tp_03" (770, 442)%Z.
Definition P02_R05_SP02 : TransportPoint.t :=
  TransportPoint.init "zcly" "污染广场" P02_R05 "mm_tp_03" (381, 655)%Z.
Definition P02_R05_SP03 : TransportPoint.t :=
  TransportPoint.init "zzzhs" "作战指挥室" P02_R05 "mm_tp_03" (495, 856)%Z.
Definition P02_R05_SP04 : TransportPoint.t :=
  TransportPoint.init "gzcqx" "古战场前线" P02_R05 "mm_tp_03" (570, 1243)%Z.
Definition P02_R05_SP05 : TransportPoint.t :=
  TransportPoint.init "mlzx" "鸣雷之形" P02_R05 "mm_tp_06" (526, 640)%Z.
Definition P02_R05_SP06 : TransportPoint.t :=
  TransportPoint.init "sjzx" "霜晶之形" P02_R05 "mm_tp_06" (681, 1231)%Z.
Definition P02_R05_SP07 : TransportPoint.t :=
  TransportPoint.init "pbzj" "漂泊之径" P02_R05 "mm_tp_09" (654, 242)%Z.
Definition P02_R05_SP08 : TransportPoint.t :=
  TransportPoint.init "twjq" "铁卫禁区" P02_R05 "mm_sp02" (389, 626)%Z.
Definition P02_R05_SP09 : TransportPoint.t :=
  TransportPoint.init "ydl" "永冬岭" P02_R05 "mm_sp02" (733, 1280)%Z.
Definition P02_R06_SP01 : TransportPoint.t :=
  TransportPoint.init "gzc" "古战场" P02_R06 "mm_tp_03" (366, 776)%Z.
Definition P02_R06_SP02 : TransportPoint.t :=
  TransportPoint.init "zwpt" "造物平台" P02_R06 "mm_tp_03" (784, 571)%Z.
Definition P02_R06_SP03 : TransportPoint.t :=
  TransportPoint.init "rzzj" "睿治之径" P02_R06 "mm_tp_09" (585, 663)%Z.
Definition P02_R06_SP04 : TransportPoint.t :=
  TransportPoint.init "cxhl" "残响回廊" P02_R06 "mm_sp_02" (338, 793)%Z.
Definition P02_R10_SP01 : TransportPoint.t :=
  TransportPoint.init "rk" "入口" P02_R10 "mm_tp_03" (333, 166)%Z.
Definition P02_R10_SP02 : TransportPoint.t :=
  TransportPoint.init "llzbns" "流浪者避难所" P02_R10 "mm_tp_03" (778, 349)%Z.
Definition P02_R10_SP03 : TransportPoint.t :=
  TransportPoint.init "fkd" "俯瞰点" P02_R10 "mm_tp_03" (565, 641)%Z.
Definition P02_R10_SP04 : TransportPoint.t :=
  TransportPoint.init "zkd" "主矿道" P02_R10 "mm_tp_03" (530, 757)%Z.
Definition P02_R10_SP05 : TransportPoint.t :=
  TransportPoint.init "fmzx" "锋芒之形" P02_R10 "mm_tp_06" (561, 536)%Z.
Definition P02_R10_SP06 : TransportPoint.t :=
  TransportPoint.init "fzzx" "燔灼之形" P02_R10 "mm_tp_06" (836, 630)%Z.
Definition P02_R10_SP07 : TransportPoint.t :=
  TransportPoint.init "xwzl" "虚无之蕾" P02_R10 "mm_tp_07" (295, 243)%Z.
Definition P02_R10_SP08 : TransportPoint.t :=
  TransportPoint.init "czzl" "藏珍之蕾" P02_R10 "mm_tp_08" (554, 686)%Z.
Definition P02_R10_SP09 : TransportPoint.t :=
  TransportPoint.init "pyz" "磐岩镇" P02_R10 "mm_sp_02" (351, 144)%Z.

(** The [TransportPoint] constants of the module, in the order of their
    definition. *)
Definition TRANSPORT_POINT_CONSTANTS : list TransportPoint.t :=
  [P01_R01_SP01; P01_R01_SP02; P01_R01_SP03_HTBGS; P01_R01_SP04;
   P01_R01_SP05; P01_R01_SP06; P01_R02_SP01_JKS; P01_R02_SP02;
   P01_R02_SP03; P01_R02_SP04; P01_R03_SP01_KZZXW; P01_R03_SP02;
   P01_R03_SP03; P01_R03_SP04; P01_R03_SP05_HMZL; P01_R03_SP06;
   P01_R03_SP07; P01_R04_SP01; P01_R04_SP02; P01_R04_SP03;
   P01_R04_SP04; P01_R04_SP05; P02_R02_SP01; P02_R02_SP02;
   P02_R02_SP03; P02_R02_SP04; P02_R02_SP05; P02_R02_SP06;
   P02_R03_SP01; P02_R03_SP02; P02_R03_SP03; P02_R03_SP04;
   P02_R03_SP05; P02_R03_SP06; P02_R05_SP01; P02_R05_SP02;
   P02_R05_SP03; P02_R05_SP04; P02_R05_SP05; P02_R05_SP06;
   P02_R05_SP07; P02_R05_SP08; P02_R05_SP09; P02_R06_SP01;
   P02_R06_SP02; P02_R06_SP03; P02_R06_SP04; P02_R10_SP01;
   P02_R10_SP02; P02_R10_SP03; P02_R10_SP04; P02_R10_SP05;
   P02_R10_SP06; P02_R10_SP07; P02_R10_SP08; P02_R10_SP09].

(** The list [arr] that [get_sp_by_cn] searches. *)
Definition get_sp_by_cn_arr : list TransportPoint.t :=
  [P01_R01_SP01; P01_R01_SP02; P01_R01_SP03_HTBGS; P01_R01_SP04;
   P01_R01_SP04; P01_R01_SP05; P01_R01_SP06; P01_R02_SP01_JKS;
   P01_R02_SP02; P01_R02_SP03; P01_R02_SP04; P01_R03_SP01_KZZXW;
   P01_R03_SP02; P01_R03_SP03; P01_R03_SP04; P01_R03_SP05_HMZL;
   P01_R03_SP06; P01_R03_SP07; P01_R04_SP01; P01_R04_SP02;
   P01_R04_SP03; P01_R04_SP04; P01_R04_SP05; P02_R02_SP01;
   P02_R02_SP02; P02_R02_SP03; P02_R02_SP04; P02_R02_SP05;
   P02_R02_SP06; P02_R03_SP01; P02_R03_SP02; P02_R03_SP03;
   P02_R03_SP04; P02_R03_SP05; P02_R03_SP06; P02_R06_SP01;
   P02_R06_SP02; P02_R06_SP03; P02_R06_SP04].

(** The loop of [get_sp_by_cn]: the first point whose planet, region, level
    and name all agree; the function returns [None] when it falls off the
    end. [i.planet.cn] is an [AttributeError] for a point without planet. *)
Fixpoint get_sp_by_cn_loop (arr : list TransportPoint.t)
         (planet_cn region_cn : string) (level : Z) (tp_cn : string)
  : res (option TransportPoint.t) :=
  match arr with
  | [] => Ok None
  | i :: arr' =>
      match TransportPoint.planet i with
      | None => Raise AttributeError
      | Some planet =>
          if negb (String.eqb (Planet.cn planet) planet_cn)
          then get_sp_by_cn_loop arr' planet_cn region_cn level tp_cn
          else if negb (String.eqb (Region.cn (TransportPoint.region i)) region_cn)
          then get_sp_by_cn_loop arr' planet_cn region_cn level tp_cn
          else if negb (Region.level (TransportPoint.region i) =? level)%Z
          then get_sp_by_cn_loop arr' planet_cn region_cn level tp_cn
          else if negb (String.eqb (TransportPoint.cn i) tp_cn)
          then get_sp_by_cn_loop arr' planet_cn region_cn level tp_cn
          else Ok (Some i)
      end
  end.

Definition get_sp_by_cn (planet_cn region_cn : string) (level : Z)
           (tp_cn : string) : res (option TransportPoint.t) :=
  get_sp_by_cn_loop get_sp_by_cn_arr planet_cn region_cn level tp_cn.

(** Python dicts keep their keys in the order of insertion: [d[k] = v]
    replaces the value of a key that is present and adds a new key at the
    end; [d.get(k)] is [None] for a missing key. *)
Fixpoint dict_set {V : Type} (d : list (string * V)) (key : string) (v : V)
  : list (string * V) :=
  match d with
  | [] => [(key, v)]
  | (k, v0) :: d' =>
      if String.eqb k key then (k, v) :: d' else (k, v0) :: dict_set d' key v
  end.

Fixpoint dict_lookup {V : Type} (d : list (string * V)) (key : string)
  : option V :=
  match d with
  | [] => None
  | (k, v) :: d' => if String.eqb k key then Some v else dict_lookup d' key
  end.

(** The entries of the dict literal [REGION_2_SP], in the order of the
    source: the region whose [get_pr_id()] is the key, and the points. *)
Definition REGION_2_SP_literal : list (Region.t * list TransportPoint.t) :=
  [ (P01_R01_ZKCD,
     [P01_R01_SP03_HTBGS]);
    (P01_R02_JZCD,
     [P01_R02_SP01_JKS]);
    (P01_R03_SRCD_L1,
     [P01_R03_SP01_KZZXW; P01_R03_SP02; P01_R03_SP03; P01_R03_SP04;
      P01_R03_SP05_HMZL; P01_R03_SP06; P01_R03_SP07]);
    (P01_R04_ZYCD_L1,
     [P01_R04_SP01; P01_R04_SP02; P01_R04_SP03; P01_R04_SP04;
      P01_R04_SP05]);
    (P02_R02,
     [P02_R02_SP01; P02_R02_SP02; P02_R02_SP03; P02_R02_SP04;
      P02_R02_SP05; P02_R02_SP06]);
    (P02_R03,
     [P02_R03_SP01; P02_R03_SP02; P02_R03_SP03; P02_R03_SP04;
      P02_R03_SP05; P02_R03_SP06]);
    (P02_R05,
     [P02_R05_SP01; P02_R05_SP02; P02_R05_SP03; P02_R05_SP04;
      P02_R05_SP05; P02_R05_SP06; P02_R05_SP07; P02_R05_SP08;
      P02_R05_SP09]);
    (P02_R06,
     [P02_R06_SP01; P02_R06_SP02; P02_R06_SP03; P02_R06_SP04]);
    (P02_R10,
     [P02_R10_SP01; P02_R10_SP02; P02_R10_SP03; P02_R10_SP04;
      P02_R10_SP05; P02_R10_SP06; P02_R10_SP07; P02_R10_SP08;
      P02_R10_SP09]) ].

(** The dict [REGION_2_SP], built when the module is loaded. *)
Definition REGION_2_SP : res (list (string * list TransportPoint.t)) :=
  fold_left (fun d entry =>
               d' <- d ;;
               key <- get_pr_id (fst entry) ;;
               Ok (dict_set d' key (snd entry)))
            REGION_2_SP_literal (Ok []).

(** Exceptions besides those of [exn]. *)
Inductive exception : Type :=
| Builtin (e : exn)
| TypeError         (* iteration over [None] *)
| OSError.          (* a failed operation of the file system *)

Inductive outcome (A : Type) : Type :=
| Returns (a : A)
| Throws (e : exception).

Arguments Returns {A} a.
Arguments Throws {A} e.

(** One iteration of the loop of [get_sp_type_in_rect] for a selected point:
    [if sp.template_id not in sp_map: sp_map[sp.template_id] = []] and
    [sp_map[sp.template_id].append(sp)]. *)
Fixpoint sp_map_append (sp_map : list (string * list TransportPoint.t))
         (sp : TransportPoint.t) : list (string * list TransportPoint.t) :=
  match sp_map with
  | [] => [(TransportPoint.template_id sp, [sp])]
  | (k, g) :: sp_map' =>
      if String.eqb k (TransportPoint.template_id sp)
      then (k, (g ++ [sp])%list) :: sp_map'
      else (k, g) :: sp_map_append sp_map' sp
  end.

Section SpecialPoints.

(** The type of the rectangles given to [get_sp_type_in_rect], and
    [cal_utils.in_rect], which is not among the sources. *)
Variable rect_tuple : Type.
Variable in_rect : Z * Z -> rect_tuple -> bool.

Definition in_rect_or_all (rect : option rect_tuple) (sp : TransportPoint.t)
  : bool :=
  match rect with
  | None => true
  | Some r => in_rect (TransportPoint.lm_pos sp) r
  end.

Definition group_by_template (sp_list : list TransportPoint.t)
           (rect : option rect_tuple)
  : list (string * list TransportPoint.t) :=
  fold_left (fun sp_map sp =>
               if in_rect_or_all rect sp then sp_map_append sp_map sp
               else sp_map)
            sp_list [].

(** [REGION_2_SP.get(...)] is [None] for a region without entry, and the
    loop over [None] is a [TypeError]. *)
Definition get_sp_type_in_rect (region : Region.t) (rect : option rect_tuple)
  : outcome (list (string * list TransportPoint.t)) :=
  match REGION_2_SP with
  | Raise e => Throws (Builtin e)
  | Ok d =>
      match get_pr_id region with
      | Raise e => Throws (Builtin e)
      | Ok key =>
          match dict_lookup d key with
          | None => Throws TypeError
          | Some sp_list => Returns (group_by_template sp_list rect)
          end
      end
  end.

End SpecialPoints.

Close Scope string_scope.

(** ** [basic/str_utils.py]: the longest common subsequence *)

(** A Python string is the list of its code points. *)
Definition pystr : Type := list N.

(** [s[i]] *)
Definition str_at (s : pystr) (i : nat) : res N :=
  match nth_error s i with
  | Some c => Ok c
  | None => Raise IndexError
  end.

(** [l[i] = v] *)
Fixpoint list_set {A : Type} (l : list A) (i : nat) (v : A) : res (list A) :=
  match l, i with
  | [], _ => Raise IndexError
  | _ :: l', 0 => Ok (v :: l')
  | a :: l', S i' => l'' <- list_set l' i' v ;; Ok (a :: l'')
  end.

(** [dp[i][j] = v]: the row [dp[i]] is updated in place. *)
Definition table_set (dp : list (list Z)) (i j : nat) (v : Z)
  : res (list (list Z)) :=
  match nth_error dp i with
  | None => Raise IndexError
  | Some row => row' <- list_set row j v ;; list_set dp i row'
  end.

(** A [for] loop that updates a state and stops at the first exception. *)
Fixpoint for_each {A S : Type} (body : S -> A -> res S) (l : list A) (s : S)
  : res S :=
  match l with
  | [] => Ok s
  | a :: l' => s' <- body s a ;; for_each body l' s'
  end.

(** The body of the inner loop of [longest_common_subsequence_length]. *)
Definition lcs_body (str1 str2 : pystr) (i : nat) (dp : list (list Z))
           (j : nat) : res (list (list Z)) :=
  c1 <- str_at str1 (i - 1) ;;
  c2 <- str_at str2 (j - 1) ;;
  if N.eqb c1 c2 then
    v <- index2 dp (i - 1) (j - 1) ;;
    table_set dp i j (v + 1)%Z
  else
    a <- index2 dp (i - 1) j ;;
    b <- index2 dp i (j - 1) ;;
    table_set dp i j (Z.max a b).

Definition longest_common_subsequence_length (str1 str2 : pystr) : res Z :=
  let m := List.length str1 in
  let n := List.length str2 in
  let dp := repeat (repeat 0%Z (n + 1)) (m + 1) in
  dp' <- for_each (fun dp i => for_each (lcs_body str1 str2 i) (seq 1 n) dp)
                  (seq 1 m) dp ;;
  index2 dp' m n.

(** [c] is a subsequence of [l]: [l] with some elements left out. *)
Inductive Subseq {A : Type} : list A -> list A -> Prop :=
| Subseq_nil : Subseq [] []
| Subseq_skip (a : A) (c l : list A) : Subseq c l -> Subseq c (a :: l)
| Subseq_take (a : A) (c l : list A) : Subseq c l -> Subseq (a :: c) (a :: l).

(** The length of a longest common subsequence, by recursion on the two
    lists: the definition the table of the function is compared with. *)
Fixpoint lcs_rec (l1 : pystr) : pystr -> nat :=
  match l1 with
  | [] => fun _ => 0
  | a :: l1' =>
      fix inner (l2 : pystr) : nat :=
        match l2 with
        | [] => 0
        | b :: l2' =>
            if N.eqb a b then S (lcs_rec l1' l2')
            else Nat.max (lcs_rec l1' l2) (inner l2')
        end
  end.

(** ** [basic/str_utils.py]: get_positive_digits *)

(** The code points of a string of ASCII characters. *)
Definition codepoints (s : string) : pystr :=
  map N_of_ascii (list_ascii_of_string s).

Section PositiveDigits.

(** The Unicode table of decimal digits: [decimal_value c] is the value of
    the code point [c] when it is a decimal digit, which is what the regular
    expression for digits matches and what [int] reads. *)
Variable decimal_value : N -> option Z.

(** [sys.get_int_max_str_digits()]: the number of digits beyond which [int]
    raises [ValueError]; 0 when there is no limit. *)
Variable int_max_str_digits : nat.

Definition is_decimal (c : N) : bool :=
  match decimal_value c with
  | Some _ => true
  | None => false
  end.

(** [re.sub] with the pattern for non-digits and the empty replacement: the
    decimal digits of [v]. *)
Definition re_sub_non_digits (v : pystr) : pystr := filter is_decimal v.

Definition digits_value (d : pystr) : Z :=
  fold_left (fun acc c =>
               (10 * acc + match decimal_value c with
                           | Some k => k
                           | None => 0
                           end)%Z)
            d 0%Z.

(** [int(d)] for a string of decimal digits; [None] when it raises
    [ValueError]: for the empty string and for more digits than the limit. *)
Definition int_of_digits (d : pystr) : option Z :=
  match d with
  | [] => None
  | _ =>
      if (0 <? int_max_str_digits) && (int_max_str_digits <? List.length d)
      then None
      else Some (digits_value d)
  end.

(** [v] may be [None]: [re.sub] then raises [TypeError], which the
    [except Exception] clause catches like the [ValueError] of [int]. *)
Definition get_positive_digits (v : option pystr) (err : option Z)
  : option Z :=
  match v with
  | None => err
  | Some s =>
      match int_of_digits (re_sub_non_digits s) with
      | Some n => Some n
      | None => err
      end
  end.

End PositiveDigits.

(** ** [os_utils.py]: join_dir_path_with_mk *)

Section FileSystem.

(** [os.path.join] *)
Variable path_join : string -> string -> string.

(** The file system is the list of the paths that exist. Whether
    [os.mkdir(path)] can create [path] in a given state (the parent exists,
    the process may write there, ...) is up to the system. *)
Variable mkdir_possible : list string -> string -> bool.

Definition os_path_exists (fs : list string) (path : string) : bool :=
  existsb (String.eqb path) fs.

(** [os.mkdir(path)]: the new state, or [OSError]. *)
Definition os_mkdir (fs : list string) (path : string)
  : outcome (list string) :=
  if os_path_exists fs path then Throws OSError
  else if mkdir_possible fs path then Returns (path :: fs)
  else Throws OSError.

(** The loop of [join_dir_path_with_mk]: the state of the file system when
    the function ends, and what it returns or raises. *)
Fixpoint join_dir_loop (fs : list string) (target_path : string)
         (subs : list string) : list string * outcome string :=
  match subs with
  | [] => (fs, Returns target_path)
  | sub :: subs' =>
      let target_path := path_join target_path sub in
      if negb (os_path_exists fs target_path) then
        match os_mkdir fs target_path with
        | Returns fs' => join_dir_loop fs' target_path subs'
        | Throws e => (fs, Throws e)
        end
      else join_dir_loop fs target_path subs'
  end.

Definition join_dir_path_with_mk (fs : list string) (path : string)
           (subs : list string) : list string * outcome string :=
  join_dir_loop fs path subs.

(** The paths [join_dir_path_with_mk] goes through: [path] joined with the
    first sub-directory, with the first two, and so on. *)
Fixpoint joined_paths (path : string) (subs : list string) : list string :=
  match subs with
  | [] => []
  | sub :: subs' => path_join path sub :: joined_paths (path_join path sub) subs'
  end.

End FileSystem.

(** ** binary_with_white_alpha *)

(** [image[:, :, k]]: channel [k] of every pixel. *)
Definition channel (image : Image) (k : nat) : res (list (list Z)) :=
  mapM (mapM (fun px : Pixel =>
                match nth_error px k with
                | Some v => Ok v
                | None => Raise IndexError
                end))
       image.

(** [gray[alpha_channel == 0] = 255] on one row and on the array: the two
    must have the same shape. *)
Fixpoint white_where_zero_row (alpha gray : list Z) : res (list Z) :=
  match alpha, gray with
  | [], [] => Ok []
  | a :: alpha', g :: gray' =>
      rest <- white_where_zero_row alpha' gray' ;;
      Ok ((if (a =? 0)%Z then 255%Z else g) :: rest)
  | _, _ => Raise IndexError
  end.

Fixpoint white_where_zero (alpha gray : list (list Z)) : res (list (list Z)) :=
  match alpha, gray with
  | [], [] => Ok []
  | arow :: alpha', grow :: gray' =>
      row <- white_where_zero_row arow grow ;;
      rest <- white_where_zero alpha' gray' ;;
      Ok (row :: rest)
  | _, _ => Raise IndexError
  end.

(** [cv2.threshold(gray, thresh, maxval, cv2.THRESH_BINARY)], second
    component: [maxval] where the pixel is greater than [thresh], else 0. *)
Definition cv2_threshold_binary (gray : list (list Z)) (thresh maxval : Z)
  : list (list Z) :=
  map (map (fun v => if (thresh <? v)%Z then maxval else 0%Z)) gray.

Section BinaryWithWhiteAlpha.

Variable cvtColor_BGR2GRAY : Image -> res (list (list Z)).

Definition binary_with_white_alpha (image : Image) (thresh : Z)
  : res (list (list Z)) :=
  alpha_channel <- channel image 3 ;;
  gray <- cvtColor_BGR2GRAY image ;;
  gray' <- white_where_zero alpha_channel gray ;;
  Ok (cv2_threshold_binary gray' thresh 255).

End BinaryWithWhiteAlpha.

(** ** Data of the examples *)

Definition f32_zero : score := S754_zero false.
Definition f32_one : score := S754_finite false 8388608 (-23).

Fixpoint list_eqb {A : Type} (eqb : A -> A -> bool) (l1 l2 : list A) : bool :=
  match l1, l2 with
  | [], [] => true
  | a1 :: l1', a2 :: l2' => eqb a1 a2 && list_eqb eqb l1' l2'
  | _, _ => false
  end.

Definition image_eqb : Image -> Image -> bool :=
  list_eqb (list_eqb (list_eqb Z.eqb)).

(** The part of [image] a template of [rows] by [cols] pixels covers when
    placed at column [cx], row [cy]. *)
Definition window (image : Image) (cx cy rows cols : nat) : Image :=
  map (fun row => firstn cols (skipn cx row)) (firstn rows (skipn cy image)).

(** A scorer for the examples: the normalised correlation of a template with
    an identical window is 1; every other placement is given 0 here. *)
Definition exact_ncc (image templ : Image) (mask : option Mask)
           (cx cy : nat) : score :=
  if image_eqb (window image cx cy (shape0 templ) (shape1 templ)) templ
  then f32_one else f32_zero.

(** A scorer for the examples after the formula of [TM_CCOEFF_NORMED], for
    images of one channel: the correlation of the template and the window
    it covers, each with its mean subtracted, divided by the product of
    their norms. The value is computed exactly and cut to a multiple of
    2^-24; a template or window without variation scores 0. *)
Definition pixel_values (image : Image) : list Z :=
  List.concat (map (@List.concat Z) image).

Definition sum_Z (l : list Z) : Z := fold_right Z.add 0%Z l.

Definition dot (l1 l2 : list Z) : Z :=
  sum_Z (map (fun p => (fst p * snd p)%Z) (combine l1 l2)).

Definition tm_ccoeff_normed (image templ : Image) (mask : option Mask)
           (cx cy : nat) : score :=
  let t := pixel_values templ in
  let i := pixel_values (window image cx cy (shape0 templ) (shape1 templ)) in
  let n := Z.of_nat (List.length t) in
  let num := (n * dot t i - sum_Z t * sum_Z i)%Z in
  let dt := (n * dot t t - sum_Z t * sum_Z t)%Z in
  let di := (n * dot i i - sum_Z i * sum_Z i)%Z in
  if (dt * di =? 0)%Z then f32_zero
  else
    let q := Z.sqrt (num * num * 2 ^ 48 / (dt * di)) in
    binary_normalize 24 128 (if (num <? 0)%Z then (- q)%Z else q) (-24) false.

(** A scorer that gives every placement the score [v]. *)
Definition uniform_ncc (v : score) (image templ : Image) (mask : option Mask)
           (cx cy : nat) : score := v.

(** The Python floats 0.5 and 0.8481090068827138, and the float32 value
    14228908 * 2^-24 = 0.8481090068817139..., the nearest to the latter. *)
Definition f64_half : python_float := S754_finite false 4503599627370496 (-53).
Definition f64_0_8481090068827138 : python_float :=
  S754_finite false 7639086814733103 (-53).
Definition f32_0_8481090068817139 : score := S754_finite false 14228908 (-24).

(** A textured capture: [n] rows of [cols] one-channel pixels, cut from a
    fixed pattern of values below 251 starting at its row [first]; two such
    captures show the same content where their rows of the pattern agree. *)
Definition texture (i c : nat) : Z :=
  let i := Z.of_nat i in
  let c := Z.of_nat c in
  ((i * i * i + 7 * i + 13 * c * i + 5 * c) mod 251)%Z.

Definition textured (first n cols : nat) : Image :=
  map (fun i => map (fun c => [texture (first + i) c]) (seq 0 cols)) (seq 0 n).

(** A one-channel-per-pixel strip: [n] rows of [cols] pixels, row [i] filled
    with the value [first + i]. *)
Definition strip (first : Z) (n cols : nat) : Image :=
  map (fun i => repeat [(first + Z.of_nat i)%Z] cols) (seq 0 n).

(** A source of 3 rows by 4 columns and the template of 2 rows by 3 columns
    cut from its top-left corner. *)
Definition source_3x4 : Image :=
  [ [[1]; [2]; [3]; [4]];
    [[5]; [6]; [7]; [8]];
    [[9]; [10]; [11]; [12]] ]%Z.

Definition template_2x3 : Image :=
  [ [[1]; [2]; [3]];
    [[5]; [6]; [7]] ]%Z.

(** A template of 3 rows by 1 column: taller than a source of 2 rows by 2
    columns, and narrower. *)
Definition source_2x2 : Image := [ [[1]; [2]]; [[3]; [4]] ]%Z.
Definition template_3x1 : Image := [ [[1]]; [[3]]; [[5]] ]%Z.

(** Stand-ins for the colour conversion in the examples: the first channel
    of every pixel. *)
Definition first_channel (image : Image) : res (list (list Z)) :=
  Ok (map (map (fun px : Pixel => hd 0%Z px)) image).

(** An image in which the transform responds to nothing, and one with two
    synthetic circles of radius 10 and 20 around the centres (50, 50) and
    (60, 50); one with two circles of radius 170 and 185. *)
Definition no_response (gray : list (list Z)) (dp minDist : Q) : list Circle :=
  [].

Definition two_small_circles (gray : list (list Z)) (dp minDist : Q)
  : list Circle :=
  [mkCircle (50 # 1) (50 # 1) (10 # 1); mkCircle (60 # 1) (50 # 1) (20 # 1)].

Definition two_large_circles (gray : list (list Z)) (dp minDist : Q)
  : list Circle :=
  [mkCircle (200 # 1) (210 # 1) (341 # 2); mkCircle (350 # 1) (215 # 1) (1851 # 10)].

(** A game for the examples: the state is the number of clicks received, the
    screen never changes and the matcher finds the button at (10, 20). *)
Definition still_click (world : nat) (p : MatchResult) : bool * nat :=
  (true, S world).

Definition still_matcher (source : Image) (template_id template_type : string)
  : MatchResultList :=
  [mkMatchResult f32_one 10 20 30 40].

Definition still_rounds (worlds : list nat) (self : ScaleLargeMap.t unit)
  : list (res round_result) :=
  ScaleLargeMap.rounds (fun _ : nat => source_3x4) still_click (fun w => w)
                       (fun img _ => img) still_matcher worlds self.

Definition still_init (scale : Z) : ScaleLargeMap.t unit :=
  ScaleLargeMap.init (fun _ _ : Z => tt) scale.

(** An operation of the given scale and click count that holds a click
    target in [pos]. *)
Definition with_target (scale click_times : Z) : ScaleLargeMap.t unit :=
  ScaleLargeMap.mk tt scale click_times
                   (Some (mkMatchResult f32_one 610 980 30 40)).

(** The ASCII part of the table of decimal digits. *)
Definition ascii_decimal (c : N) : option Z :=
  if ((48 <=? c) && (c <=? 57))%N then Some (Z.of_N c - 48)%Z else None.

(** A file system for the examples: paths are joined with a slash, and a
    directory can be created when it is not the path for which the system
    denies it. *)
Definition slash_join (a b : string) : string := (a ++ "/" ++ b)%string.

Definition all_but_denied (fs : list string) (path : string) : bool :=
  negb (String.eqb path "w/x/denied").

(** An image of one row with a transparent and an opaque pixel, and a
    stand-in for the colour conversion that takes the third channel. *)
Definition two_pixels_bgra : Image := [ [[10; 20; 30; 0]; [10; 20; 40; 255]] ]%Z.

Definition third_channel (image : Image) : res (list (list Z)) :=
  Ok (map (map (fun px : Pixel => nth 2 px 0%Z)) image).

(* ================================================================== *)
(** * Properties *)

Unset Implicit Arguments.

(** ** The error monad *)

Lemma bind_Ok_inv {A B : Type} (m : res A) (k : A -> res B) (b : B) :
  bind m k = Ok b -> exists a, m = Ok a /\ k a = Ok b.
Proof.
  destruct m as [a|e]; simpl; intros E; [eauto | discriminate].
Qed.

Lemma mapM_Forall2 {A B : Type} (f : A -> res B) (l : list A) (l' : list B) :
  mapM f l = Ok l' -> Forall2 (fun a b => f a = Ok b) l l'.
Proof.
  revert l'; induction l as [|a l IH]; simpl; intros l' E.
  - injection E as <-. constructor.
  - apply bind_Ok_inv in E as (b & Eb & E).
    apply bind_Ok_inv in E as (bs & Ebs & E).
    injection E as <-. constructor; auto.
Qed.

Lemma mapM_total {A B : Type} (f : A -> res B) (l : list A) :
  (forall a, In a l -> exists b, f a = Ok b) -> exists l', mapM f l = Ok l'.
Proof.
  induction l as [|a l IH]; simpl; intros Hf.
  - eauto.
  - destruct (Hf a (or_introl eq_refl)) as (b & ->).
    destruct IH as (bs & ->); [intros; apply Hf; auto|].
    simpl. eauto.
Qed.

(** ** Comparison of floats *)

Lemma SFleb_trans (a b c : spec_float) :
  SFleb a b = true -> SFleb b c = true -> SFleb a c = true.
Proof.
  unfold SFleb.
  destruct a as [sa|sa| |sa ma ea], b as [sb|sb| |sb mb eb],
           c as [sc|sc| |sc mc ec]; simpl;
    repeat match goal with s : bool |- _ => destruct s end; simpl;
    try reflexivity; try discriminate; auto;
    change (Pos.compare_cont Eq) with Pos.compare;
    destruct (Z.compare_spec ea eb), (Z.compare_spec eb ec),
             (Z.compare_spec ea ec);
    subst; simpl; try reflexivity; try discriminate; try lia;
    destruct (Pos.compare_spec ma mb), (Pos.compare_spec mb mc),
             (Pos.compare_spec ma mc);
    subst; simpl; try reflexivity; try discriminate; try lia.
Qed.

(** ** np.where *)

Lemma where_row_In (cond : score -> bool) (r c0 : nat) (row : list score)
      (r' c' : nat) :
  In (r', c') (where_row cond r c0 row) <->
  r' = r /\ c0 <= c' /\
  exists v, nth_error row (c' - c0) = Some v /\ cond v = true.
Proof.
  revert c0; induction row as [|v row IH]; intros c0; simpl.
  - split; [tauto|]. intros (_ & _ & v & E & _).
    destruct (c' - c0); discriminate.
  - assert (Hstep : In (r', c') (where_row cond r (S c0) row) <->
                    r' = r /\ c0 < c' /\
                    exists u, nth_error row (c' - S c0) = Some u /\ cond u = true).
    { rewrite IH. intuition. }
    assert (Hhere : forall P : Prop,
               (P <-> r' = r /\ c0 < c' /\
                      exists u, nth_error row (c' - S c0) = Some u /\ cond u = true) ->
               (((r, c0) = (r', c') /\ cond v = true) \/ P <->
                r' = r /\ c0 <= c' /\
                exists u, nth_error (v :: row) (c' - c0) = Some u /\ cond u = true)).
    { intros P HP. rewrite HP. split.
      - intros [(E & Hv) | (-> & Hlt & u & Hu & Hc)].
        + injection E as <- <-. rewrite Nat.sub_diag. simpl. eauto.
        + replace (c' - c0) with (S (c' - S c0)) by lia. simpl. eauto 6 with arith.
      - intros (-> & Hle & u & Hu & Hc).
        destruct (Nat.eq_dec c0 c') as [<-|Hne].
        + rewrite Nat.sub_diag in Hu. simpl in Hu. injection Hu as <-. auto.
        + right. replace (c' - c0) with (S (c' - S c0)) in Hu by lia.
          simpl in Hu. repeat split; eauto; lia. }
    destruct (cond v) eqn:Hv; simpl.
    + rewrite <- (Hhere _ Hstep). intuition.
    + rewrite <- (Hhere _ Hstep). intuition discriminate.
Qed.

Lemma where_rows_In (cond : score -> bool) (a : list (list score))
      (r0 r' c' : nat) :
  In (r', c') (where_rows cond r0 a) <->
  r0 <= r' /\
  exists row v, nth_error a (r' - r0) = Some row /\
                nth_error row c' = Some v /\ cond v = true.
Proof.
  revert r0; induction a as [|row a IH]; intros r0; simpl.
  - split; [tauto|]. intros (_ & row & v & E & _).
    destruct (r' - r0); discriminate.
  - rewrite in_app_iff, where_row_In, IH, Nat.sub_0_r. split.
    + intros [(-> & _ & v & Hv & Hc) | (Hlt & row' & v & Hr & Hv & Hc)].
      * rewrite Nat.sub_diag. simpl. eauto 6.
      * replace (r' - r0) with (S (r' - S r0)) by lia. simpl.
        split; [lia|eauto].
    + intros (Hle & row' & v & Hr & Hv & Hc).
      destruct (Nat.eq_dec r0 r') as [<-|Hne].
      * rewrite Nat.sub_diag in Hr. simpl in Hr. injection Hr as <-.
        left. repeat split; eauto with arith.
      * right. replace (r' - r0) with (S (r' - S r0)) in Hr by lia.
        simpl in Hr. split; [lia|eauto].
Qed.

Lemma where_row_NoDup (cond : score -> bool) (r c0 : nat) (row : list score) :
  NoDup (where_row cond r c0 row).
Proof.
  revert c0; induction row as [|v row IH]; intros c0; simpl.
  - constructor.
  - destruct (cond v); auto. constructor; auto.
    rewrite where_row_In. lia.
Qed.

Lemma where_rows_NoDup (cond : score -> bool) (r0 : nat) (a : list (list score)) :
  NoDup (where_rows cond r0 a).
Proof.
  revert r0; induction a as [|row a IH]; intros r0; simpl.
  - constructor.
  - apply NoDup_app; auto using where_row_NoDup.
    intros [r' c'] H1 H2.
    apply where_row_In in H1 as (-> & _). apply where_rows_In in H2. lia.
Qed.

Lemma where_rows_index2 (cond : score -> bool) (a : list (list score))
      (r c : nat) :
  In (r, c) (where_rows cond 0 a) <->
  exists v, index2 a r c = Ok v /\ cond v = true.
Proof.
  rewrite where_rows_In, Nat.sub_0_r. unfold index2. split.
  - intros (_ & row & v & -> & -> & Hc). eauto.
  - intros (v & E & Hc). split; [lia|].
    destruct (nth_error a r) as [row|]; [|discriminate].
    destruct (nth_error row c) as [u|] eqn:Hu; [|discriminate].
    injection E as ->. eauto.
Qed.

Lemma where_row_length_mono (c1 c2 : score -> bool) (r c0 : nat)
      (row : list score) :
  (forall v, c2 v = true -> c1 v = true) ->
  List.length (where_row c2 r c0 row) <= List.length (where_row c1 r c0 row).
Proof.
  intros Himp. revert c0; induction row as [|v row IH]; intros c0; simpl; auto.
  specialize (IH (S c0)). specialize (Himp v).
  destruct (c2 v), (c1 v); simpl; try lia.
Qed.

Lemma where_rows_length_mono (c1 c2 : score -> bool) (r0 : nat)
      (a : list (list score)) :
  (forall v, c2 v = true -> c1 v = true) ->
  List.length (where_rows c2 r0 a) <= List.length (where_rows c1 r0 a).
Proof.
  intros Himp. revert r0; induction a as [|row a IH]; intros r0; simpl; auto.
  rewrite !length_app.
  pose proof (where_row_length_mono c1 c2 r0 0 row Himp). specialize (IH (S r0)). lia.
Qed.

Lemma combine_snd_fst {A B : Type} (l : list (A * B)) :
  combine (map snd l) (map fst l) = map (fun p => (snd p, fst p)) l.
Proof.
  induction l as [|[a b] l IH]; simpl; congruence.
Qed.

(** ** match_template *)

Section MatchTemplateFacts.

Variable ncc : Image -> Image -> option Mask -> nat -> nat -> score.

(** The condition [match_template] passes to [np.where]. *)
Let retained (threshold : score) (ignore_inf : bool) (v : score) : bool :=
  float_ge v threshold && (if ignore_inf then np_isfinite v else true).

(** How a result of [match_template] is made from a location [(row, column)]
    of the score map. *)
Let made_from (result : list (list score)) (template : Image)
    (p : nat * nat) (m : MatchResult) : Prop :=
  exists v, index2 result (fst p) (snd p) = Ok v /\
            m = mkMatchResult v (Z.of_nat (snd p)) (Z.of_nat (fst p))
                              (Z.of_nat (shape0 template))
                              (Z.of_nat (shape1 template)).

Lemma match_template_unfold source template threshold mask ignore_inf result :
  cv2_matchTemplate ncc source template mask = Ok result ->
  exists l,
    match_template ncc source template threshold mask ignore_inf = Ok l /\
    Forall2 (made_from result template)
            (where_rows (retained threshold ignore_inf) 0 result) l.
Proof.
  intros Hcv. unfold match_template. rewrite Hcv. simpl.
  rewrite combine_snd_fst.
  fold (retained threshold ignore_inf).
  assert (Hin : forall p, In p (where_rows (retained threshold ignore_inf) 0 result) ->
                          exists v, index2 result (fst p) (snd p) = Ok v).
  { intros [r c] Hp. apply where_rows_index2 in Hp as (v & Hv & _).
    simpl. eauto. }
  induction (where_rows (retained threshold ignore_inf) 0 result)
    as [|p hits IH]; simpl.
  - eexists; split; [reflexivity | constructor].
  - destruct (Hin p (or_introl eq_refl)) as (v & Hv). rewrite Hv. simpl.
    destruct IH as (l & -> & HF); [intros; apply Hin; simpl; auto|].
    simpl. eexists; split; [reflexivity|].
    constructor; auto. exists v; auto.
Qed.

Lemma match_template_inv source template threshold mask ignore_inf l :
  match_template ncc source template threshold mask ignore_inf = Ok l ->
  exists result,
    cv2_matchTemplate ncc source template mask = Ok result /\
    Forall2 (made_from result template)
            (where_rows (retained threshold ignore_inf) 0 result) l.
Proof.
  intros Hm.
  destruct (cv2_matchTemplate ncc source template mask) as [result|e] eqn:Hcv.
  - exists result; split; auto.
    destruct (match_template_unfold source template threshold mask ignore_inf result Hcv)
      as (l' & E & HF).
    rewrite Hm in E; injection E as ->. exact HF.
  - unfold match_template in Hm. rewrite Hcv in Hm. discriminate.
Qed.

Lemma match_template_raises source template threshold mask ignore_inf e :
  cv2_matchTemplate ncc source template mask = Raise e ->
  match_template ncc source template threshold mask ignore_inf = Raise e.
Proof.
  intros Hcv. unfold match_template. rewrite Hcv. reflexivity.
Qed.

Lemma match_template_length source template threshold mask ignore_inf l result :
  cv2_matchTemplate ncc source template mask = Ok result ->
  match_template ncc source template threshold mask ignore_inf = Ok l ->
  List.length l =
  List.length (where_rows (retained threshold ignore_inf) 0 result).
Proof.
  intros Hcv Hm.
  destruct (match_template_inv _ _ _ _ _ _ Hm) as (result' & Hcv' & HF).
  rewrite Hcv in Hcv'; injection Hcv' as <-.
  symmetry. eapply Forall2_length; eauto.
Qed.

Lemma made_from_locations result template hits l :
  Forall2 (made_from result template) hits l ->
  map (fun m => (x m, y m)) l =
  map (fun p : nat * nat => (Z.of_nat (snd p), Z.of_nat (fst p))) hits.
Proof.
  induction 1 as [|p m hits l (v & _ & ->) _ IH]; simpl; congruence.
Qed.

Lemma made_from_each result template hits l :
  Forall2 (made_from result template) hits l ->
  Forall (fun m => In (Z.to_nat (y m), Z.to_nat (x m)) hits /\
                   index2 result (Z.to_nat (y m)) (Z.to_nat (x m))
                   = Ok (confidence m)) l.
Proof.
  induction 1 as [|[r c] m hits l (v & Hv & ->) _ IH]; constructor.
  - simpl in *. rewrite !Nat2Z.id. auto.
  - eapply Forall_impl; [|exact IH]. simpl. intuition.
Qed.

(** For a threshold of the score map's own format: every result of
    [match_template] has a confidence that is [>=] the threshold; the
    results are the locations of the score map whose score clears the
    threshold (and is finite, when [ignore_inf] is set), each such location
    once, with the score of the location as confidence. *)
Lemma match_template_results_clear_threshold
        source template threshold mask ignore_inf l :
  match_template ncc source template threshold mask ignore_inf = Ok l ->
  Forall (fun m => float_ge (confidence m) threshold = true) l /\
  (exists result,
      cv2_matchTemplate ncc source template mask = Ok result /\
      (forall col row : nat,
          (exists v, index2 result row col = Ok v /\
                     float_ge v threshold = true /\
                     (ignore_inf = true -> np_isfinite v = true)) <->
          (exists m, In m l /\ x m = Z.of_nat col /\ y m = Z.of_nat row)) /\
      Forall (fun m => index2 result (Z.to_nat (y m)) (Z.to_nat (x m))
                       = Ok (confidence m)) l) /\
  NoDup (map (fun m => (x m, y m)) l).
Proof.
  intros Hm.
  destruct (match_template_inv _ _ _ _ _ _ Hm) as (result & Hcv & HF).
  pose proof (where_rows_NoDup (retained threshold ignore_inf) 0 result) as Hnd.
  pose proof (made_from_locations _ _ _ _ HF) as Hloc.
  pose proof (made_from_each _ _ _ _ HF) as Heach.
  assert (Hhits : forall r c,
             In (r, c) (where_rows (retained threshold ignore_inf) 0 result) <->
             exists v, index2 result r c = Ok v /\
                       float_ge v threshold = true /\
                       (ignore_inf = true -> np_isfinite v = true)).
  { intros r c. rewrite where_rows_index2. unfold retained.
    split; intros (v & Hv & Hc); exists v; split; auto.
    - apply andb_true_iff in Hc as (H1 & H2). split; auto.
      intros ->. exact H2.
    - destruct Hc as (H1 & H2). rewrite H1. simpl.
      destruct ignore_inf; auto. }
  split; [|split].
  - eapply Forall_impl; [|exact Heach]. intros m (Hin & Hidx).
    apply Hhits in Hin as (v & Hv & Hge & _).
    rewrite Hidx in Hv. injection Hv as <-. exact Hge.
  - exists result. split; [exact Hcv|]. split.
    + intros col row. rewrite <- Hhits. split.
      * intros Hin.
        assert (Hin' : In (Z.of_nat col, Z.of_nat row)
                          (map (fun m => (x m, y m)) l)).
        { rewrite Hloc. apply in_map_iff. exists (row, col). auto. }
        apply in_map_iff in Hin' as (m & E & Hm'). injection E as Hx Hy.
        eauto.
      * intros (m & Hin & Hx & Hy).
        rewrite Forall_forall in Heach. destruct (Heach m Hin) as (Hh & _).
        rewrite Hx, Hy, !Nat2Z.id in Hh. exact Hh.
    + eapply Forall_impl; [|exact Heach]. simpl. tauto.
  - rewrite Hloc. apply Injective_map_NoDup; [|exact Hnd].
    intros [r1 c1] [r2 c2] E. simpl in E. injection E as E1 E2.
    f_equal; lia.
Qed.


(** What [match_template] stores as [w] and [h]: [tx], the number of rows of
    the template, and [ty], its number of columns. *)
Lemma match_template_w_h source template threshold mask ignore_inf l :
  match_template ncc source template threshold mask ignore_inf = Ok l ->
  Forall (fun m => w m = Z.of_nat (shape0 template) /\
                   h m = Z.of_nat (shape1 template)) l.
Proof.
  intros Hm.
  destruct (match_template_inv _ _ _ _ _ _ Hm) as (result & _ & HF).
  clear Hm. induction HF as [|p m hits l (v & _ & ->) _ IH].
  - constructor.
  - constructor; [simpl; split; reflexivity | exact IH].
Qed.

(** C3 (amended). [match_template] has no size check of its own: when the
    template is larger than the source in some dimension and either a mask is
    given or the template is smaller in the other dimension, the size
    assertion of [cv2.matchTemplate] fails and [match_template] raises that
    error; it does not return an empty list. *)
Theorem match_template_larger_template_raises
        source template threshold mask ignore_inf :
  shape0 source < shape0 template \/ shape1 source < shape1 template ->
  mask <> None \/
  shape0 template < shape0 source \/ shape1 template < shape1 source ->
  match_template ncc source template threshold mask ignore_inf
  = Raise cv2_error.
Proof.
  intros Hlarger Hother. apply match_template_raises.
  unfold cv2_matchTemplate. destruct mask as [m|].
  - destruct (negb _); [reflexivity|].
    destruct (Nat.leb_spec (shape0 template) (shape0 source));
      destruct (Nat.leb_spec (shape1 template) (shape1 source));
      simpl; try reflexivity; lia.
  - destruct Hother as [Hm | Hother]; [congruence|].
    destruct (Nat.ltb_spec (shape0 source) (shape0 template));
      destruct (Nat.ltb_spec (shape1 source) (shape1 template));
      destruct (Nat.leb_spec (shape0 source) (shape0 template));
      destruct (Nat.leb_spec (shape1 source) (shape1 template));
      simpl; try reflexivity; lia.
Qed.

(** C4. For a fixed source, template and mask and thresholds [t1 <= t2]:
    when [match_template] returns at [t1] it returns at [t2] as well, with no
    more results. *)
Theorem match_template_count_monotone
        source template mask ignore_inf t1 t2 l1 :
  SFleb t1 t2 = true ->
  match_template ncc source template t1 mask ignore_inf = Ok l1 ->
  exists l2,
    match_template ncc source template t2 mask ignore_inf = Ok l2 /\
    List.length l2 <= List.length l1.
Proof.
  intros Hle H1.
  destruct (match_template_inv _ _ _ _ _ _ H1) as (result & Hcv & _).
  destruct (match_template_unfold source template t2 mask ignore_inf result Hcv)
    as (l2 & H2 & _).
  exists l2. split; [exact H2|].
  rewrite (match_template_length _ _ _ _ _ _ _ Hcv H1).
  rewrite (match_template_length _ _ _ _ _ _ _ Hcv H2).
  apply where_rows_length_mono. intros v Hv. unfold retained, float_ge in *.
  apply andb_true_iff in Hv as (Hge & Hfin).
  rewrite (SFleb_trans _ _ _ Hle Hge). exact Hfin.
Qed.

End MatchTemplateFacts.



(** C2. On a source of 3 rows by 4 columns and the template of 2 rows by 3
    columns cut from its corner, the one result of [match_template] has
    [w = 2], the number of rows of the template, and [h = 3], its number of
    columns: the two are exchanged. *)
Theorem match_template_nonsquare_w_h_exchanged :
  shape0 template_2x3 = 2 /\ shape1 template_2x3 = 3 /\
  match_template exact_ncc source_3x4 template_2x3 f32_half None false
  = Ok [mkMatchResult f32_one 0 0 2 3] /\
  w (mkMatchResult f32_one 0 0 2 3) <> Z.of_nat (shape1 template_2x3) /\
  h (mkMatchResult f32_one 0 0 2 3) <> Z.of_nat (shape0 template_2x3).
Proof.
  repeat split; try reflexivity; simpl; lia.
Qed.

(** C3, as stated, fails: for a template of 3 rows by 1 column and a source
    of 2 rows by 2 columns [match_template] raises. *)
Lemma match_template_larger_template_not_empty :
  ~ (forall ncc source template threshold mask ignore_inf,
        shape0 source < shape0 template \/ shape1 source < shape1 template ->
        match_template ncc source template threshold mask ignore_inf = Ok []).
Proof.
  intros Hclaim.
  assert (H : match_template exact_ncc source_2x2 template_3x1 f32_half
                             None false = Ok []).
  { apply Hclaim. left. cbv. lia. }
  vm_compute in H. discriminate H.
Qed.

Lemma match_template_larger_template_raises_witness :
  match_template exact_ncc source_2x2 template_3x1 f32_half None false
  = Raise cv2_error.
Proof.
  apply (match_template_larger_template_raises
           exact_ncc source_2x2 template_3x1 f32_half None false).
  - left. cbv. lia.
  - right. right. cbv. lia.
Defined.

Lemma match_template_count_monotone_witness :
  exists l2,
    match_template exact_ncc source_3x4 template_2x3 f32_half None false
    = Ok l2 /\
    List.length l2 <=
    List.length [mkMatchResult f32_one 0 0 2 3;
                 mkMatchResult f32_zero 1 0 2 3;
                 mkMatchResult f32_zero 0 1 2 3;
                 mkMatchResult f32_zero 1 1 2 3].
Proof.
  apply (match_template_count_monotone
           exact_ncc source_3x4 template_2x3 None false f32_zero f32_half).
  - reflexivity.
  - reflexivity.
Defined.

(** ** concat_vertically *)

Lemma slice_index_nonneg (len : nat) (i : Z) :
  (0 <= i)%Z -> slice_index len i = Nat.min (Z.to_nat i) len.
Proof.
  intros Hi. unfold slice_index.
  destruct (Z.ltb_spec i 0); [lia | reflexivity].
Qed.

Lemma cv2_vconcat_same_width (a b : Image) :
  Forall (fun row => List.length row = shape1 a) b ->
  cv2_vconcat a b = Ok (a ++ b).
Proof.
  intros Hb. unfold cv2_vconcat. destruct b as [|row b].
  - rewrite app_nil_r. reflexivity.
  - inversion Hb as [|? ? Hrow _]; subst.
    unfold shape1 at 2. simpl. rewrite Hrow, Nat.eqb_refl. reflexivity.
Qed.

(** What [concat_vertically] returns when the best match of the top strip of
    [next_img] lies [overlap] rows above the bottom of [img]: the rows of
    [img] followed by the rows of [next_img] from index [overlap + 1] on, so
    [overlap + 1] rows of [next_img] are left out. *)
Lemma concat_vertically_height ncc (img next_img : Image) (decision_height : Z)
      (result : MatchResultList) (r : MatchResult) (overlap : nat) :
  match_template ncc img (rows_slice next_img 0 decision_height)
                 f32_half None false = Ok result ->
  best_result result = Some r ->
  y r = (Z.of_nat (shape0 img) - Z.of_nat overlap)%Z ->
  overlap < shape0 next_img ->
  Forall (fun row => List.length row = shape1 img) next_img ->
  concat_vertically ncc img next_img decision_height
  = Ok (img ++ skipn (overlap + 1) next_img) /\
  shape0 (img ++ skipn (overlap + 1) next_img)
  = shape0 img + shape0 next_img - (overlap + 1).
Proof.
  intros Hmatch Hbest Hy Hlt Hwidth. split.
  - unfold concat_vertically. rewrite Hmatch. simpl. rewrite Hbest, Hy.
    unfold rows_from. rewrite slice_index_nonneg by lia.
    replace (Nat.min _ _) with (overlap + 1) by (unfold shape0 in Hlt; lia).
    apply cv2_vconcat_same_width.
    rewrite Forall_forall in *. intros row Hrow. apply Hwidth.
    rewrite <- (firstn_skipn (overlap + 1) next_img).
    apply in_or_app. right. exact Hrow.
  - unfold shape0 in *. rewrite length_app, length_skipn. lia.
Qed.

(** C7. Two captures of equal width whose contents overlap by exactly 200
    rows, the overlap being the best match of the top strip of the second
    in the first: [concat_vertically] returns the first capture followed by
    the rows of the second from index 201 on. Its height is
    [h1 + h2 - 201], one less than [h1 + h2 - 200]: row 200 of the second
    capture is lost. *)
Theorem concat_vertically_overlap_200_loses_a_row
        ncc (img next_img : Image) (result : MatchResultList)
        (r : MatchResult) :
  Forall (fun row => List.length row = shape1 img) next_img ->
  200 <= shape0 img -> 200 < shape0 next_img ->
  skipn (shape0 img - 200) img = firstn 200 next_img ->
  match_template ncc img (rows_slice next_img 0 200) f32_half None false
  = Ok result ->
  best_result result = Some r ->
  y r = Z.of_nat (shape0 img - 200) ->
  concat_vertically ncc img next_img 200 = Ok (img ++ skipn 201 next_img) /\
  shape0 (img ++ skipn 201 next_img) = shape0 img + shape0 next_img - 201 /\
  shape0 (img ++ skipn 201 next_img) <> shape0 img + shape0 next_img - 200 /\
  img ++ skipn 201 next_img <> img ++ skipn 200 next_img.
Proof.
  intros Hwidth Hh1 Hh2 _ Hmatch Hbest Hy.
  destruct (concat_vertically_height ncc img next_img 200 result r 200
              Hmatch Hbest) as (Hout & Hlen); [lia | exact Hh2 | exact Hwidth |].
  change (200 + 1) with 201 in *.
  split; [exact Hout|]. split; [exact Hlen|]. split; [lia|].
  intros E. apply (f_equal (@List.length _)) in E.
  rewrite !length_app, !length_skipn in E. unfold shape0 in *. lia.
Qed.

(** The textured captures of 300 rows that show rows 0..299 and 100..399 of
    the pattern: the top strip of the second matches the first at row 100
    only, and the result has 399 rows, not 400. *)
Lemma concat_vertically_overlap_200_loses_a_row_witness :
  match_template tm_ccoeff_normed (textured 0 300 2)
                 (rows_slice (textured 100 300 2) 0 200) f32_half None false
  = Ok [mkMatchResult f32_one 0 100 200 2] /\
  (concat_vertically tm_ccoeff_normed (textured 0 300 2) (textured 100 300 2)
                     200
   = Ok (textured 0 300 2 ++ skipn 201 (textured 100 300 2)) /\
   shape0 (textured 0 300 2 ++ skipn 201 (textured 100 300 2))
   = shape0 (textured 0 300 2) + shape0 (textured 100 300 2) - 201 /\
   shape0 (textured 0 300 2 ++ skipn 201 (textured 100 300 2))
   <> shape0 (textured 0 300 2) + shape0 (textured 100 300 2) - 200 /\
   textured 0 300 2 ++ skipn 201 (textured 100 300 2)
   <> textured 0 300 2 ++ skipn 200 (textured 100 300 2)).
Proof.
  split; [vm_compute; reflexivity|].
  apply (concat_vertically_overlap_200_loses_a_row
           tm_ccoeff_normed (textured 0 300 2) (textured 100 300 2)
           [mkMatchResult f32_one 0 100 200 2]
           (mkMatchResult f32_one 0 100 200 2)).
  - vm_compute. repeat constructor.
  - vm_compute. lia.
  - vm_compute. lia.
  - vm_compute. reflexivity.
  - vm_compute. reflexivity.
  - reflexivity.
  - reflexivity.
Defined.

(** The result on the textured captures: 399 rows, the rows 0..299 and
    301..399 of the pattern; row 300 is missing. *)
Example concat_vertically_textured :
  concat_vertically tm_ccoeff_normed (textured 0 300 2) (textured 100 300 2)
                    200
  = Ok (textured 0 300 2 ++ textured 301 99 2) /\
  shape0 (textured 0 300 2 ++ textured 301 99 2) = 399.
Proof. split; vm_compute; reflexivity. Qed.

(** ** find_max_circle *)

Lemma np_around_bounds (q : Q) (a b : Z) :
  Qle_bool (inject_Z a) q = true -> Qle_bool q (inject_Z b) = true ->
  (a <= np_around q <= b)%Z.
Proof.
  rewrite !Qle_bool_iff. unfold Qle, np_around. destruct q as [n d].
  cbn [Qnum Qden inject_Z].
  intros Ha Hb.
  pose proof (Z.div_mod n (Zpos d) ltac:(lia)) as Hdm.
  pose proof (Z.mod_pos_bound n (Zpos d) ltac:(lia)) as Hmod.
  assert (Hfl : (a <= n / Zpos d)%Z) by (apply Z.div_le_lower_bound; lia).
  assert (Hfu : (n / Zpos d <= b)%Z).
  { apply Z.lt_succ_r. apply Z.div_lt_upper_bound; lia. }
  assert (Hfull : (n / Zpos d = b -> n mod Zpos d = 0)%Z) by nia.
  destruct (Z.ltb_spec (2 * (n mod Zpos d)) (Zpos d)); [lia|].
  assert (n / Zpos d < b)%Z by lia.
  destruct (Z.ltb_spec (Zpos d) (2 * (n mod Zpos d))); [lia|].
  destruct (Z.even (n / Zpos d)); lia.
Qed.

Lemma fold_keep_larger (l : list (Z * Z * Z)) (acc : Z * Z * Z) :
  let best := fold_left keep_larger l acc in
  (best = acc \/ In best l) /\
  (snd acc <= snd best)%Z /\
  Forall (fun t => (snd t <= snd best)%Z) l.
Proof.
  revert acc; induction l as [|t l IH]; intros acc; simpl.
  - repeat split; auto. lia.
  - specialize (IH (keep_larger acc t)). simpl in IH.
    destruct IH as (Hin & Hacc & Hall).
    assert (Hk : (keep_larger acc t = acc \/ keep_larger acc t = t) /\
                 (snd acc <= snd (keep_larger acc t))%Z /\
                 (snd t <= snd (keep_larger acc t))%Z).
    { unfold keep_larger. destruct acc as [[ax ay] ar], t as [[tx ty] tr].
      simpl. destruct (Z.ltb_spec ar tr); simpl; repeat split; auto; lia. }
    destruct Hk as (Hk & Hk1 & Hk2).
    repeat split.
    + destruct Hin as [-> | Hin]; [destruct Hk as [-> | ->]|]; auto.
    + lia.
    + constructor; [lia | exact Hall].
Qed.

Lemma cv2_HoughCircles_in_bounds hough gray dp minDist minRadius maxRadius
      circles :
  cv2_HoughCircles hough gray dp minDist minRadius maxRadius = Some circles ->
  circles <> [] /\
  Forall (fun c => In c (hough gray dp minDist) /\
                   (minRadius <= np_around (cr c) <= maxRadius)%Z) circles.
Proof.
  unfold cv2_HoughCircles.
  destruct (filter _ (hough gray dp minDist)) as [|c kept] eqn:Hf;
    [discriminate|].
  intros E; injection E as <-. split; [discriminate|].
  rewrite <- Hf. apply Forall_forall. intros c' Hc'.
  apply filter_In in Hc' as (Hin & Hb). apply andb_true_iff in Hb as (H1 & H2).
  split; [exact Hin | apply np_around_bounds; assumption].
Qed.

(** C6. Where the colour conversion succeeds and circle detection finds no
    circle, [find_max_circle] returns [(0, 0, 0)] and does not raise. *)
Theorem find_max_circle_no_circle cvtColor hough image gray :
  cvtColor image = Ok gray ->
  cv2_HoughCircles hough gray (12 # 10) (100 # 1) 160 200 = None ->
  find_max_circle cvtColor hough image = Ok (0, 0, 0)%Z.
Proof.
  intros Hgray Hnone. unfold find_max_circle.
  rewrite Hgray. simpl. rewrite Hnone. reflexivity.
Qed.

Lemma find_max_circle_no_circle_witness :
  find_max_circle first_channel no_response source_3x4 = Ok (0, 0, 0)%Z.
Proof.
  apply (find_max_circle_no_circle first_channel no_response source_3x4
           [[1; 2; 3; 4]; [5; 6; 7; 8]; [9; 10; 11; 12]]%Z).
  - reflexivity.
  - reflexivity.
Defined.

(** C5, as stated, fails: circles of radius 10 and 20 are outside the radius
    bounds 160..200 of the call of [cv2.HoughCircles]; for an image with two
    such circles [find_max_circle] returns [(0, 0, 0)], not the circle of
    radius 20. *)
Lemma find_max_circle_small_circles_not_returned :
  ~ (forall cvtColor hough image gray c10 c20,
        cvtColor image = Ok gray ->
        hough gray (12 # 10)%Q (100 # 1)%Q = [c10; c20] ->
        cr c10 = (10 # 1)%Q -> cr c20 = (20 # 1)%Q ->
        (cx c10, cy c10) <> (cx c20, cy c20) ->
        find_max_circle cvtColor hough image = Ok (round_circle c20)).
Proof.
  intros Hclaim.
  specialize (Hclaim first_channel two_small_circles source_3x4 _ _ _
                     eq_refl eq_refl eq_refl eq_refl).
  vm_compute in Hclaim.
  assert (H : Ok (0, 0, 0)%Z = Ok (60, 50, 20)%Z) by (apply Hclaim; discriminate).
  discriminate H.
Qed.

(** C5 (amended). When [cv2.HoughCircles] reports circles, [find_max_circle]
    returns one of them, rounded, whose radius is the largest among them; all
    reported circles have a radius within the bounds 160..200 of the call. *)
Theorem find_max_circle_largest_detected cvtColor hough image gray circles :
  cvtColor image = Ok gray ->
  cv2_HoughCircles hough gray (12 # 10) (100 # 1) 160 200 = Some circles ->
  exists c,
    In c circles /\
    find_max_circle cvtColor hough image = Ok (round_circle c) /\
    (160 <= snd (round_circle c) <= 200)%Z /\
    Forall (fun c' => (snd (round_circle c') <= snd (round_circle c))%Z)
           circles.
Proof.
  intros Hgray Hsome. unfold find_max_circle.
  rewrite Hgray. simpl. rewrite Hsome.
  apply cv2_HoughCircles_in_bounds in Hsome as (Hne & Hb).
  assert (Hr : Forall (fun t => (160 <= snd t <= 200)%Z)
                      (map round_circle circles)).
  { apply Forall_map. eapply Forall_impl; [|exact Hb].
    intros c (_ & Hc). unfold round_circle, np_uint16. simpl.
    rewrite Z.mod_small by lia. lia. }
  destruct (fold_keep_larger (map round_circle circles) (0, 0, 0)%Z)
    as (Hin & _ & Hall). simpl in Hin, Hall.
  destruct Hin as [E | Hin].
  - exfalso. rewrite E in Hall.
    destruct circles as [|c circles]; [congruence|].
    simpl in Hr, Hall.
    apply Forall_inv in Hr. apply Forall_inv in Hall.
    simpl in Hr, Hall. lia.
  - apply in_map_iff in Hin as (c & E & Hc). exists c.
    rewrite <- E in Hall |- *.
    split; [exact Hc|]. split; [reflexivity|]. split.
    + rewrite Forall_forall in Hr. apply (Hr (round_circle c)).
      apply in_map. exact Hc.
    + rewrite Forall_forall in Hall |- *. intros c' Hc'.
      apply (Hall (round_circle c')). apply in_map. exact Hc'.
Qed.

Lemma find_max_circle_largest_detected_witness :
  exists c,
    In c (two_large_circles [] (12 # 10)%Q (100 # 1)%Q) /\
    find_max_circle first_channel two_large_circles source_3x4
    = Ok (round_circle c) /\
    (160 <= snd (round_circle c) <= 200)%Z /\
    Forall (fun c' => (snd (round_circle c') <= snd (round_circle c))%Z)
           (two_large_circles [] (12 # 10)%Q (100 # 1)%Q).
Proof.
  apply (find_max_circle_largest_detected
           first_channel two_large_circles source_3x4
           [[1; 2; 3; 4]; [5; 6; 7; 8]; [9; 10; 11; 12]]%Z).
  - reflexivity.
  - reflexivity.
Defined.

(** ** The world graph *)

Open Scope string_scope.

Lemma R0_GJCX_has_no_planet :
  In R0_GJCX REGION_CONSTANTS /\
  Region.planet R0_GJCX = None /\
  region_key R0_GJCX = Raise AttributeError /\
  get_pr_id R0_GJCX = Raise AttributeError /\
  get_prl_id R0_GJCX = Raise AttributeError.
Proof.
  repeat split; try reflexivity. left; reflexivity.
Qed.

(** C8, as stated, fails: the region constant [R0_GJCX] is constructed with
    the planet [None]; it belongs to no planet and [get_pr_id] raises on it. *)
Lemma region_without_planet :
  ~ (forall r, In r REGION_CONSTANTS ->
               exists p, Region.planet r = Some p /\ In p PLANET_LIST /\
                         (exists s, get_pr_id r = Ok s) /\
                         (exists s, get_prl_id r = Ok s)).
Proof.
  intros Hclaim.
  destruct (Hclaim R0_GJCX (or_introl eq_refl)) as (p & Hp & _).
  discriminate Hp.
Qed.

(** C8 (amended). Every region constant other than [R0_GJCX] has a planet,
    one of [PLANET_LIST]; its identity key [(planet.id, region.id, level)] and
    its folder ids [get_pr_id] and [get_prl_id] are defined, the latter being
    the planet id followed by [get_rl_id]. *)
Theorem region_planet_valid (r : Region.t) :
  In r REGION_CONSTANTS -> r <> R0_GJCX ->
  exists p,
    Region.planet r = Some p /\ In p PLANET_LIST /\
    region_key r = Ok (Planet.id p, Region.id r, Region.level r) /\
    get_pr_id r = Ok (Planet.id p ++ "-" ++ Region.id r) /\
    get_prl_id r = Ok (Planet.id p ++ "-" ++ get_rl_id r).
Proof.
  intros Hin Hne. unfold REGION_CONSTANTS in Hin. simpl in Hin.
  repeat (destruct Hin as [<- | Hin]; [try congruence|]);
    try contradiction;
    (eexists; split; [reflexivity|]; split; [simpl; tauto|];
     repeat split; reflexivity).
Qed.

Lemma region_planet_valid_witness :
  exists p,
    Region.planet P01_R03_SRCD_B1 = Some p /\ In p PLANET_LIST /\
    region_key P01_R03_SRCD_B1 = Ok (Planet.id p, "srcd", (-1)%Z) /\
    get_pr_id P01_R03_SRCD_B1 = Ok (Planet.id p ++ "-" ++ "srcd") /\
    get_prl_id P01_R03_SRCD_B1 = Ok (Planet.id p ++ "-" ++ "srcd-b1").
Proof.
  apply (region_planet_valid P01_R03_SRCD_B1).
  - simpl. tauto.
  - discriminate.
Defined.

(** The regions of [PLANET_2_REGION] are the region constants with a planet,
    each listed under the id of its planet, and their identity keys are
    pairwise distinct. *)
Lemma PLANET_2_REGION_consistent :
  Forall (fun entry =>
            Forall (fun r => exists p, Region.planet r = Some p /\
                                       Planet.id p = fst entry)
                   (snd entry))
         PLANET_2_REGION /\
  (forall r, In r (List.concat (map snd PLANET_2_REGION)) <->
             In r REGION_CONSTANTS /\ r <> R0_GJCX) /\
  NoDup (map region_key (List.concat (map snd PLANET_2_REGION))).
Proof.
  split; [|split].
  - repeat constructor; eexists; split; reflexivity.
  - intros r. simpl. split.
    + intros H.
      repeat (destruct H as [<- | H]; [split; [simpl; tauto | discriminate]|]).
      contradiction.
    + intros (H & Hne).
      repeat (destruct H as [<- | H]; [try congruence; tauto|]).
      contradiction.
  - simpl. repeat constructor; simpl; intuition discriminate.
Qed.

Close Scope string_scope.

(** ** ScaleLargeMap *)

Section ScaleLargeMapFacts.

Variable World : Type.
Variable screenshot : World -> Image.
Variable controller_click : World -> MatchResult -> bool * World.
Variable sleep_half_second : World -> World.
Variable crop_image : Image -> Rect -> Image.
Variable im_match_template : Image -> string -> string -> MatchResultList.
Variable OperationBase : Type.
Variable Operation_init : Z -> Z -> OperationBase.
Variable Operation_on_resume : OperationBase -> OperationBase.

Local Abbreviation get_click_pos :=
  (ScaleLargeMap.get_click_pos screenshot crop_image im_match_template).
Local Abbreviation execute_one_round :=
  (ScaleLargeMap._execute_one_round screenshot controller_click
     sleep_half_second crop_image im_match_template).
Local Abbreviation on_resume :=
  (ScaleLargeMap.on_resume screenshot crop_image im_match_template
     Operation_on_resume).
Local Abbreviation rounds :=
  (ScaleLargeMap.rounds screenshot controller_click sleep_half_second
     crop_image im_match_template).
Local Abbreviation init := (ScaleLargeMap.init Operation_init).

(** In the sources as they are, [get_click_pos] raises: the module
    [cv2_utils] binds no name [crop_image]. *)
Lemma get_click_pos_raises world (self : ScaleLargeMap.t OperationBase) :
  get_click_pos world self = Raise AttributeError.
Proof. reflexivity. Qed.


(** The three ways a round can go: [get_click_pos] raises, or it finds
    nothing, or a click target is there (cached, or just found). *)
Lemma execute_one_round_cases world (self : ScaleLargeMap.t OperationBase) :
  (ScaleLargeMap.pos self = None /\
   exists e, execute_one_round world self = (world, self, Raise e)) \/
  (ScaleLargeMap.pos self = None /\
   execute_one_round world self = (world, self, Ok RETRY)) \/
  (exists p world',
      execute_one_round world self =
      (world',
       ScaleLargeMap.mk (ScaleLargeMap.op self) (ScaleLargeMap.scale self)
                        (ScaleLargeMap.click_times self + 1) (Some p),
       Ok (if (ScaleLargeMap.click_times self + 1
               =? Z.abs (ScaleLargeMap.scale self))%Z
           then SUCCESS else WAIT)) /\
      (ScaleLargeMap.pos self = None \/ ScaleLargeMap.pos self = Some p)).
Proof.
  destruct self as [o s c [p|]];
    unfold ScaleLargeMap._execute_one_round;
    cbn [ScaleLargeMap.pos ScaleLargeMap.op ScaleLargeMap.scale
         ScaleLargeMap.click_times].
  - right. right. exists p. eexists. split; [|right; reflexivity].
    destruct (_ =? _)%Z; reflexivity.
  - destruct (ScaleLargeMap.get_click_pos screenshot crop_image
                im_match_template world (ScaleLargeMap.mk o s c None))
      as [[p|]|e]; cbn [bind ScaleLargeMap.pos ScaleLargeMap.op
                        ScaleLargeMap.scale ScaleLargeMap.click_times].
    + right. right. exists p. eexists. split; [|left; reflexivity].
      destruct (_ =? _)%Z; reflexivity.
    + right. left. split; reflexivity.
    + left. split; [reflexivity|]. exists e. reflexivity.
Qed.

(** A round in which the click target is known: the click count grows by
    one, and the round succeeds exactly when it reaches [abs scale]. *)
Lemma execute_one_round_click world (self : ScaleLargeMap.t OperationBase) p :
  ScaleLargeMap.pos self = Some p ->
  exists world',
    execute_one_round world self =
    (world',
     ScaleLargeMap.mk (ScaleLargeMap.op self) (ScaleLargeMap.scale self)
                      (ScaleLargeMap.click_times self + 1) (Some p),
     Ok (if (ScaleLargeMap.click_times self + 1
             =? Z.abs (ScaleLargeMap.scale self))%Z
         then SUCCESS else WAIT)).
Proof.
  intros Hp. unfold ScaleLargeMap._execute_one_round. rewrite Hp. simpl.
  rewrite Hp.
  destruct (_ =? _)%Z; eexists; reflexivity.
Qed.

Lemma rounds_click worlds (self : ScaleLargeMap.t OperationBase) p k :
  ScaleLargeMap.pos self = Some p ->
  k < List.length worlds ->
  nth k (rounds worlds self) (Ok FAIL) =
  Ok (if (ScaleLargeMap.click_times self + Z.of_nat (S k)
          =? Z.abs (ScaleLargeMap.scale self))%Z
      then SUCCESS else WAIT).
Proof.
  revert self k; induction worlds as [|world worlds IH]; intros self k Hp Hk;
    simpl in Hk; [lia|].
  simpl. destruct (execute_one_round_click world self p Hp) as (world' & ->).
  destruct k as [|k].
  - simpl. reflexivity.
  - simpl nth. rewrite IH; [|reflexivity|lia].
    cbn [ScaleLargeMap.click_times ScaleLargeMap.scale].
    replace (ScaleLargeMap.click_times self + 1 + Z.of_nat (S k))%Z
      with (ScaleLargeMap.click_times self + Z.of_nat (S (S k)))%Z by lia.
    reflexivity.
Qed.

(** With a click target in [pos] every round sends a click. *)
Lemma rounds_all_click worlds (self : ScaleLargeMap.t OperationBase) p :
  ScaleLargeMap.pos self = Some p ->
  rounds worlds self = map Ok (click_outcomes (rounds worlds self)) /\
  List.length (click_outcomes (rounds worlds self)) = List.length worlds.
Proof.
  revert self; induction worlds as [|world worlds IH]; intros self Hp; simpl.
  - split; reflexivity.
  - destruct (execute_one_round_click world self p Hp) as (world' & ->).
    match goal with
    | |- context [rounds worlds ?s'] => destruct (IH s' eq_refl) as (E & L)
    end.
    destruct (_ =? _)%Z; simpl; rewrite <- E, L; split; reflexivity.
Qed.

(** The outcome of the [k]-th round that sends a click, counted from 0. *)
Lemma click_outcomes_nth worlds (self : ScaleLargeMap.t OperationBase) k :
  k < List.length (click_outcomes (rounds worlds self)) ->
  nth k (click_outcomes (rounds worlds self)) FAIL =
  if (ScaleLargeMap.click_times self + Z.of_nat (S k)
      =? Z.abs (ScaleLargeMap.scale self))%Z
  then SUCCESS else WAIT.
Proof.
  revert self k; induction worlds as [|world worlds IH]; intros self k;
    simpl; [intros Hk; inversion Hk|].
  destruct (execute_one_round_cases world self)
    as [(_ & e & ->) | [(_ & ->) | (p & world' & -> & _)]].
  - simpl. apply IH.
  - simpl. apply IH.
  - assert (E : forall r l,
               (r = SUCCESS \/ r = WAIT) ->
               click_outcomes (Ok r :: l) = r :: click_outcomes l).
    { intros r l [-> | ->]; reflexivity. }
    rewrite E by (destruct (_ =? _)%Z; auto).
    destruct k as [|k]; simpl nth; [intros _; reflexivity|].
    simpl List.length. intros Hk. rewrite IH by lia.
    cbn [ScaleLargeMap.click_times ScaleLargeMap.scale].
    replace (ScaleLargeMap.click_times self + 1 + Z.of_nat (S k))%Z
      with (ScaleLargeMap.click_times self + Z.of_nat (S (S k)))%Z by lia.
    reflexivity.
Qed.

Lemma rounds_no_success_after worlds (self : ScaleLargeMap.t OperationBase) :
  (Z.abs (ScaleLargeMap.scale self) <= ScaleLargeMap.click_times self)%Z ->
  ~ In (Ok SUCCESS) (rounds worlds self).
Proof.
  revert self; induction worlds as [|world worlds IH]; intros self Hge; simpl.
  - tauto.
  - destruct (execute_one_round_cases world self)
      as [(_ & e & ->) | [(_ & ->) | (q & world' & -> & _)]].
    + intros [E | Hin]; [discriminate | exact (IH self Hge Hin)].
    + intros [E | Hin]; [discriminate | exact (IH self Hge Hin)].
    + destruct (Z.eqb_spec (ScaleLargeMap.click_times self + 1)
                           (Z.abs (ScaleLargeMap.scale self))); [lia|].
      intros [E | Hin]; [discriminate|].
      revert Hin. apply IH. simpl. lia.
Qed.


End ScaleLargeMapFacts.


(** The rounds of an operation of scale -3 and of one of scale 0 that hold a
    click target, and those of a freshly constructed operation. *)
Example scale_minus_3_rounds :
  still_rounds [0; 1; 2; 3] (with_target (-3) 0)
  = [Ok WAIT; Ok WAIT; Ok SUCCESS; Ok WAIT] /\
  still_rounds [0; 1; 2; 3] (with_target 0 0)
  = [Ok WAIT; Ok WAIT; Ok WAIT; Ok WAIT] /\
  still_rounds [0; 1] (still_init (-3))
  = [Raise AttributeError; Raise AttributeError].
Proof. repeat split. Qed.

(* ================================================================== *)
(** * Further properties *)

(** ** match_template: the results as a list read off the score map *)

Lemma mapM_app {A B : Type} (f : A -> res B) (l1 l2 : list A) (r1 r2 : list B) :
  mapM f l1 = Ok r1 -> mapM f l2 = Ok r2 -> mapM f (l1 ++ l2) = Ok (r1 ++ r2).
Proof.
  revert r1; induction l1 as [|a l1 IH]; simpl; intros r1 H1 H2.
  - injection H1 as <-. exact H2.
  - apply bind_Ok_inv in H1 as (b & Hb & H1).
    apply bind_Ok_inv in H1 as (bs & Hbs & H1). injection H1 as <-.
    rewrite Hb. simpl. rewrite (IH bs Hbs H2). reflexivity.
Qed.

Lemma skipn_cons_inv {A : Type} (n : nat) (l l' : list A) (a : A) :
  skipn n l = a :: l' -> nth_error l n = Some a /\ skipn (S n) l = l'.
Proof.
  revert l; induction n as [|n IH]; intros [|b l]; simpl; intros E;
    try discriminate.
  - injection E as -> ->. auto.
  - apply IH in E. exact E.
Qed.

Section MatchTemplateResults.

Variable ncc : Image -> Image -> option Mask -> nat -> nat -> score.

Let retained (threshold : score) (ignore_inf : bool) (v : score) : bool :=
  float_ge v threshold && (if ignore_inf then np_isfinite v else true).

Let lookup (result : list (list score)) (tx ty : nat) (pt : nat * nat)
  : res MatchResult :=
  confidence <- index2 result (snd pt) (fst pt) ;;
  Ok (mkMatchResult confidence (Z.of_nat (fst pt)) (Z.of_nat (snd pt))
                    (Z.of_nat tx) (Z.of_nat ty)).

Lemma lookup_where_row cond result tx ty r fullrow c0 row :
  nth_error result r = Some fullrow ->
  skipn c0 fullrow = row ->
  mapM (lookup result tx ty)
       (map (fun p : nat * nat => (snd p, fst p)) (where_row cond r c0 row))
  = Ok (row_results cond tx ty r c0 row).
Proof.
  intros Hr. revert c0; induction row as [|v row IH]; intros c0 Hskip; simpl.
  - reflexivity.
  - apply skipn_cons_inv in Hskip as (Hv & Hskip).
    specialize (IH (S c0) Hskip).
    destruct (cond v); simpl; [|exact IH].
    unfold lookup at 1. unfold index2. simpl. rewrite Hr, Hv. simpl.
    rewrite IH. reflexivity.
Qed.

Lemma lookup_where_rows cond result tx ty r0 a :
  skipn r0 result = a ->
  mapM (lookup result tx ty)
       (map (fun p : nat * nat => (snd p, fst p)) (where_rows cond r0 a))
  = Ok (rows_results cond tx ty r0 a).
Proof.
  revert r0; induction a as [|row a IH]; intros r0 Hskip; simpl.
  - reflexivity.
  - apply skipn_cons_inv in Hskip as (Hrow & Hskip).
    rewrite map_app. apply mapM_app.
    + apply (lookup_where_row cond result tx ty r0 row 0 row Hrow eq_refl).
    + apply IH. exact Hskip.
Qed.

(** [match_template] returns the results read off the score map of
    [cv2.matchTemplate], and raises what [cv2.matchTemplate] raises. *)
Lemma match_template_rows_results source template threshold mask ignore_inf :
  match_template ncc source template threshold mask ignore_inf =
  match cv2_matchTemplate ncc source template mask with
  | Ok result =>
      Ok (rows_results (retained threshold ignore_inf)
                       (shape0 template) (shape1 template) 0 result)
  | Raise e => Raise e
  end.
Proof.
  unfold match_template.
  destruct (cv2_matchTemplate ncc source template mask) as [result|e];
    [|reflexivity].
  simpl. rewrite combine_snd_fst.
  apply (lookup_where_rows (retained threshold ignore_inf) result
           (shape0 template) (shape1 template) 0 result eq_refl).
Qed.

End MatchTemplateResults.

Lemma row_results_inside cond tx ty r c0 row :
  Forall (fun m => y m = Z.of_nat r /\
                   (Z.of_nat c0 <= x m < Z.of_nat (c0 + List.length row))%Z)
         (row_results cond tx ty r c0 row).
Proof.
  revert c0; induction row as [|v row IH]; intros c0; simpl.
  - constructor.
  - specialize (IH (S c0)).
    assert (IH' : Forall (fun m => y m = Z.of_nat r /\
                     (Z.of_nat c0 <= x m < Z.of_nat (c0 + S (List.length row)))%Z)
                         (row_results cond tx ty r (S c0) row)).
    { eapply Forall_impl; [|exact IH]. simpl. intros m (Hy & Hx).
      split; [exact Hy | lia]. }
    destruct (cond v); [constructor|]; auto. simpl. split; [reflexivity|lia].
Qed.

Lemma rows_results_inside cond tx ty r0 a n :
  Forall (fun row => List.length row <= n) a ->
  Forall (fun m => (Z.of_nat r0 <= y m < Z.of_nat (r0 + List.length a))%Z /\
                   (0 <= x m < Z.of_nat n)%Z)
         (rows_results cond tx ty r0 a).
Proof.
  intros Ha. revert r0; induction Ha as [|row a Hrow Ha IH]; intros r0; simpl.
  - constructor.
  - apply Forall_app. split.
    + eapply Forall_impl; [|apply row_results_inside]. simpl.
      intros m (Hy & Hx). split; lia.
    + eapply Forall_impl; [|apply (IH (S r0))]. simpl.
      intros m (Hy & Hx). split; lia.
Qed.

Lemma rows_results_nothing cond tx ty r0 a :
  Forall (Forall (fun v => cond v = false)) a ->
  rows_results cond tx ty r0 a = [].
Proof.
  intros Ha. revert r0; induction Ha as [|row a Hrow Ha IH]; intros r0; simpl.
  - reflexivity.
  - rewrite IH, app_nil_r. clear - Hrow. generalize 0.
    induction Hrow as [|v row Hv Hrow IH]; intros c0; simpl; [reflexivity|].
    rewrite Hv. apply IH.
Qed.

Lemma rows_results_filter (c d : score -> bool) tx ty r0 a :
  rows_results (fun v => c v && d v) tx ty r0 a =
  filter (fun m => d (confidence m)) (rows_results c tx ty r0 a).
Proof.
  revert r0; induction a as [|row a IH]; intros r0; simpl; [reflexivity|].
  rewrite filter_app, IH. f_equal. generalize 0.
  induction row as [|v row IHrow]; intros c0; simpl; [reflexivity|].
  destruct (c v); simpl; [|apply IHrow].
  destruct (d v); simpl; rewrite IHrow; reflexivity.
Qed.

Lemma rows_results_ext (c c' : score -> bool) tx ty r0 a :
  (forall v, c v = c' v) ->
  rows_results c tx ty r0 a = rows_results c' tx ty r0 a.
Proof.
  intros Hc. revert r0; induction a as [|row a IH]; intros r0; simpl;
    [reflexivity|].
  rewrite IH. f_equal. generalize 0.
  induction row as [|v row IHrow]; intros c0; simpl; [reflexivity|].
  rewrite Hc, IHrow. reflexivity.
Qed.

Lemma StronglySorted_app {A : Type} (R : A -> A -> Prop) (l1 l2 : list A) :
  StronglySorted R l1 -> StronglySorted R l2 ->
  (forall a b, In a l1 -> In b l2 -> R a b) ->
  StronglySorted R (l1 ++ l2).
Proof.
  intros H1 H2 H12. induction H1 as [|a l1 H1 IH Ha]; simpl; [exact H2|].
  constructor.
  - apply IH. intros; apply H12; simpl; auto.
  - apply Forall_app. split; [exact Ha|].
    apply Forall_forall. intros b Hb. apply H12; simpl; auto.
Qed.

Lemma row_results_sorted cond tx ty r c0 row :
  StronglySorted before (row_results cond tx ty r c0 row).
Proof.
  revert c0; induction row as [|v row IH]; intros c0; simpl.
  - constructor.
  - destruct (cond v); [|apply IH]. constructor; [apply IH|].
    eapply Forall_impl; [|apply row_results_inside]. simpl.
    intros m (Hy & Hx). right. simpl. split; [auto | lia].
Qed.

Lemma rows_results_sorted cond tx ty r0 a :
  StronglySorted before (rows_results cond tx ty r0 a).
Proof.
  revert r0; induction a as [|row a IH]; intros r0; simpl.
  - constructor.
  - apply StronglySorted_app; [apply row_results_sorted | apply IH|].
    intros m1 m2 H1 H2.
    pose proof (row_results_inside cond tx ty r0 0 row) as Hr.
    rewrite Forall_forall in Hr. destruct (Hr m1 H1) as (Hy1 & _).
    assert (Hlen : Forall (fun row => List.length row
                     <= list_max (map (@List.length score) a)) a).
    { apply Forall_forall. intros row' Hin.
      pose proof (list_max_le (map (@List.length score) a)
                              (list_max (map (@List.length score) a))) as [Hle _].
      specialize (Hle (Nat.le_refl _)). rewrite Forall_forall in Hle.
      apply Hle. apply in_map. exact Hin. }
    pose proof (rows_results_inside cond tx ty (S r0) a _ Hlen) as Ha.
    rewrite Forall_forall in Ha. destruct (Ha m2 H2) as (Hy2 & _).
    left. lia.
Qed.

(** When [cv2.matchTemplate] is given a template that fits into the source
    it returns the score map of the source: one row per vertical placement,
    one column per horizontal placement. *)
Lemma cv2_matchTemplate_fits ncc source template mask result :
  shape0 template <= shape0 source -> shape1 template <= shape1 source ->
  cv2_matchTemplate ncc source template mask = Ok result ->
  result = score_map ncc source template mask.
Proof.
  intros H0 H1. unfold cv2_matchTemplate. destruct mask as [m|].
  - destruct (negb _); [discriminate|].
    destruct (_ && _); [|discriminate]. intros E; injection E as <-. reflexivity.
  - destruct (Nat.ltb_spec (shape0 source) (shape0 template)); [lia|].
    destruct (Nat.ltb_spec (shape1 source) (shape1 template)); [lia|].
    simpl. intros E; injection E as <-. reflexivity.
Qed.

(** X1. When the template fits into the source, every result of
    [match_template] is a placement of the template inside the source: its
    [x] and [y] are not negative, [x] plus the number of columns of the
    template does not exceed the number of columns of the source, and
    likewise for [y] and the rows. *)
Theorem match_template_locations_inside
        ncc source template threshold mask ignore_inf l :
  shape0 template <= shape0 source -> shape1 template <= shape1 source ->
  match_template ncc source template threshold mask ignore_inf = Ok l ->
  Forall (fun m =>
            (0 <= x m)%Z /\
            (x m + Z.of_nat (shape1 template) <= Z.of_nat (shape1 source))%Z /\
            (0 <= y m)%Z /\
            (y m + Z.of_nat (shape0 template) <= Z.of_nat (shape0 source))%Z) l.
Proof.
  intros H0 H1 Hm. rewrite match_template_rows_results in Hm.
  destruct (cv2_matchTemplate ncc source template mask) as [result|e] eqn:Hcv;
    [|discriminate].
  injection Hm as <-.
  apply (cv2_matchTemplate_fits ncc source template mask result H0 H1) in Hcv.
  subst result. unfold score_map.
  eapply Forall_impl;
    [|apply (rows_results_inside _ _ _ 0 _
               (shape1 source - shape1 template + 1))].
  - simpl. rewrite length_map, length_seq. intros m (Hy & Hx). lia.
  - apply Forall_forall. intros row Hrow.
    apply in_map_iff in Hrow as (cy & <- & _).
    rewrite length_map, length_seq. lia.
Qed.

Lemma match_template_locations_inside_witness :
  Forall (fun m =>
            (0 <= x m)%Z /\
            (x m + Z.of_nat (shape1 template_2x3) <= Z.of_nat (shape1 source_3x4))%Z /\
            (0 <= y m)%Z /\
            (y m + Z.of_nat (shape0 template_2x3) <= Z.of_nat (shape0 source_3x4))%Z)
         [mkMatchResult f32_one 0 0 2 3;
          mkMatchResult f32_zero 1 0 2 3;
          mkMatchResult f32_zero 0 1 2 3;
          mkMatchResult f32_zero 1 1 2 3].
Proof.
  apply (match_template_locations_inside
           exact_ncc source_3x4 template_2x3 f32_zero None false).
  - cbv. lia.
  - cbv. lia.
  - reflexivity.
Defined.

(** X2. The results of [match_template] come in the order of discovery, row
    by row and from left to right within a row: each result lies strictly
    before all later ones, so no location is reported twice. *)
Theorem match_template_discovery_order
        ncc source template threshold mask ignore_inf l :
  match_template ncc source template threshold mask ignore_inf = Ok l ->
  StronglySorted before l.
Proof.
  intros Hm. rewrite match_template_rows_results in Hm.
  destruct (cv2_matchTemplate ncc source template mask) as [result|e];
    [|discriminate].
  injection Hm as <-. apply rows_results_sorted.
Qed.

Lemma match_template_discovery_order_witness :
  StronglySorted before
    [mkMatchResult f32_one 0 0 2 3;
     mkMatchResult f32_zero 1 0 2 3;
     mkMatchResult f32_zero 0 1 2 3;
     mkMatchResult f32_zero 1 1 2 3].
Proof.
  apply (match_template_discovery_order
           exact_ncc source_3x4 template_2x3 f32_zero None false).
  reflexivity.
Defined.

(** X3. A threshold that is NaN matches nothing: [match_template] returns
    the empty list whenever [cv2.matchTemplate] returns at all. *)
Theorem match_template_nan_threshold ncc source template mask ignore_inf :
  match_template ncc source template S754_nan mask ignore_inf =
  match cv2_matchTemplate ncc source template mask with
  | Ok _ => Ok []
  | Raise e => Raise e
  end.
Proof.
  rewrite match_template_rows_results.
  destruct (cv2_matchTemplate ncc source template mask) as [result|e];
    [|reflexivity].
  rewrite rows_results_nothing; [reflexivity|].
  apply Forall_forall; intros row _. apply Forall_forall; intros v _.
  reflexivity.
Qed.

(** X4. With [ignore_inf] set, [match_template] returns the results it
    returns without it whose confidence is finite, in the same order. *)
Theorem match_template_ignore_inf ncc source template threshold mask :
  match_template ncc source template threshold mask true =
  (l <- match_template ncc source template threshold mask false ;;
   Ok (filter (fun m => np_isfinite (confidence m)) l)).
Proof.
  rewrite !match_template_rows_results.
  destruct (cv2_matchTemplate ncc source template mask) as [result|e];
    [|reflexivity].
  simpl. f_equal.
  rewrite <- (rows_results_filter
                (fun v => float_ge v threshold && true) np_isfinite).
  apply rows_results_ext. intros v. rewrite andb_true_r. reflexivity.
Qed.

(** ** concat_vertically: the choice of the match and the shape of the result *)

Lemma SFltb_trans (a b c : spec_float) :
  SFltb a b = true -> SFltb b c = true -> SFltb a c = true.
Proof.
  unfold SFltb.
  destruct a as [sa|sa| |sa ma ea], b as [sb|sb| |sb mb eb],
           c as [sc|sc| |sc mc ec]; simpl;
    repeat match goal with s : bool |- _ => destruct s end; simpl;
    try reflexivity; try discriminate; auto;
    change (Pos.compare_cont Eq) with Pos.compare;
    destruct (Z.compare_spec ea eb), (Z.compare_spec eb ec),
             (Z.compare_spec ea ec);
    subst; simpl; try reflexivity; try discriminate; try lia;
    destruct (Pos.compare_spec ma mb), (Pos.compare_spec mb mc),
             (Pos.compare_spec ma mc);
    subst; simpl; try reflexivity; try discriminate; try lia.
Qed.

(** On floats other than NaN, "not greater" is transitive. *)
Lemma SFltb_false_trans (a b c : spec_float) :
  b <> S754_nan ->
  SFltb b a = false -> SFltb c b = false -> SFltb c a = false.
Proof.
  unfold SFltb. intros Hb.
  destruct a as [sa|sa| |sa ma ea], b as [sb|sb| |sb mb eb],
           c as [sc|sc| |sc mc ec]; try congruence; simpl;
    repeat match goal with s : bool |- _ => destruct s end; simpl;
    try reflexivity; try discriminate; auto;
    change (Pos.compare_cont Eq) with Pos.compare;
    destruct (Z.compare_spec eb ea), (Z.compare_spec ec eb),
             (Z.compare_spec ec ea);
    subst; simpl; try reflexivity; try discriminate; try lia;
    destruct (Pos.compare_spec mb ma), (Pos.compare_spec mc mb),
             (Pos.compare_spec mc ma);
    subst; simpl; try reflexivity; try discriminate; try lia.
Qed.

Lemma SFltb_nan_r (a : spec_float) : SFltb a S754_nan = false.
Proof. destruct a; reflexivity. Qed.

Lemma keep_better_nan (l : MatchResultList) (r0 : MatchResult) :
  confidence r0 = S754_nan -> fold_left keep_better l (Some r0) = Some r0.
Proof.
  intros Hnan. induction l as [|i l IH]; simpl; [reflexivity|].
  unfold float_gt. rewrite Hnan. simpl. exact IH.
Qed.

Lemma keep_better_fold (l : MatchResultList) (r0 r : MatchResult) :
  fold_left keep_better l (Some r0) = Some r ->
  (r = r0 \/ In r l) /\
  float_gt (confidence r0) (confidence r) = false /\
  Forall (fun i => float_gt (confidence i) (confidence r) = false) l.
Proof.
  revert r0; induction l as [|i l IH]; simpl; intros r0 E.
  - injection E as <-. repeat split; auto.
    unfold float_gt, SFltb. destruct (confidence r0) as [| | |s m e]; simpl;
      try reflexivity; try (destruct s; reflexivity).
    destruct s; rewrite Z.compare_refl;
      change (Pos.compare_cont Eq m m) with (Pos.compare m m);
      rewrite Pos.compare_refl; reflexivity.
  - destruct (float_gt (confidence i) (confidence r0)) eqn:Hgt.
    + destruct (IH i E) as (Hin & Hi & Hall). repeat split.
      * destruct Hin as [-> | Hin]; auto.
      * unfold float_gt in *.
        destruct (SFltb (confidence r) (confidence r0)) eqn:Hr; [|reflexivity].
        rewrite (SFltb_trans _ _ _ Hr Hgt) in Hi. discriminate.
      * constructor; assumption.
    + destruct (IH r0 E) as (Hin & Hr0 & Hall). repeat split.
      * destruct Hin as [-> | Hin]; auto.
      * exact Hr0.
      * constructor; [|exact Hall].
        destruct (confidence r0) as [| | |s0 m0 e0] eqn:Hc0;
          try (unfold float_gt in *;
               apply (SFltb_false_trans (confidence i) (confidence r0)
                                        (confidence r));
               rewrite ?Hc0; congruence).
        rewrite (keep_better_nan l r0 Hc0) in E. injection E as <-.
        unfold float_gt. rewrite Hc0. reflexivity.
Qed.

(** X5. The loop of [concat_vertically] that looks for the result of highest
    confidence returns nothing exactly for the empty list, and otherwise one
    of the results, than which no result has a greater confidence. *)
Theorem best_result_maximal (l : MatchResultList) :
  match best_result l with
  | None => l = []
  | Some r =>
      In r l /\
      Forall (fun i => float_gt (confidence i) (confidence r) = false) l
  end.
Proof.
  unfold best_result. destruct l as [|i l]; simpl; [reflexivity|].
  destruct (fold_left keep_better l (Some i)) as [r|] eqn:E.
  - destruct (keep_better_fold l i r E) as (Hin & Hi & Hall).
    split; [destruct Hin as [-> | Hin]; simpl; auto | constructor; assumption].
  - exfalso. clear - E. revert i E. induction l as [|j l IH]; simpl; intros i E.
    + discriminate.
    + destruct (float_gt (confidence j) (confidence i)); eauto.
Qed.

(** X6. Whatever [concat_vertically] returns is the first image, unchanged,
    followed by the last rows of the second: it is at least as high as the
    first image and no higher than the two together. *)
Theorem concat_vertically_prefix ncc (img next_img : Image)
        (decision_height : Z) (out : Image) :
  concat_vertically ncc img next_img decision_height = Ok out ->
  exists k,
    out = img ++ skipn k next_img /\
    shape0 img <= shape0 out <= shape0 img + shape0 next_img.
Proof.
  unfold concat_vertically. intros E.
  apply bind_Ok_inv in E as (result & _ & E).
  destruct (best_result result) as [r|]; [|discriminate].
  unfold rows_from in E.
  set (k := slice_index (List.length next_img)
                        (Z.of_nat (shape0 img) - y r + 1)) in E.
  exists k. unfold cv2_vconcat in E.
  assert (Hout : out = img ++ skipn k next_img).
  { destruct (skipn k next_img) as [|row rest] eqn:Hs.
    - injection E as <-. rewrite app_nil_r. reflexivity.
    - destruct (shape1 img =? shape1 (row :: rest)); [|discriminate].
      injection E as <-. reflexivity. }
  split; [exact Hout|]. subst out. unfold shape0.
  rewrite length_app, length_skipn. lia.
Qed.

Lemma concat_vertically_prefix_witness :
  exists k,
    strip 0 300 2 ++ strip 301 99 2 = strip 0 300 2 ++ skipn k (strip 100 300 2) /\
    shape0 (strip 0 300 2) <= shape0 (strip 0 300 2 ++ strip 301 99 2)
    <= shape0 (strip 0 300 2) + shape0 (strip 100 300 2).
Proof.
  apply (concat_vertically_prefix exact_ncc (strip 0 300 2) (strip 100 300 2) 200).
  vm_compute. reflexivity.
Defined.

(** X7. When no placement of the top strip of the second image in the first
    reaches the score 0.5, [concat_vertically] does not return an image: it
    raises [AttributeError]. *)
Theorem concat_vertically_no_overlap ncc (img next_img : Image)
        (decision_height : Z) (result : list (list score)) :
  cv2_matchTemplate ncc img (rows_slice next_img 0 decision_height) None
  = Ok result ->
  Forall (Forall (fun v => float_ge v f32_half = false)) result ->
  concat_vertically ncc img next_img decision_height = Raise AttributeError.
Proof.
  intros Hcv Hlow. unfold concat_vertically.
  rewrite match_template_rows_results, Hcv.
  rewrite rows_results_nothing; [reflexivity|].
  eapply Forall_impl; [|exact Hlow]. intros row Hrow.
  eapply Forall_impl; [|exact Hrow]. simpl. intros v ->. reflexivity.
Qed.

Lemma concat_vertically_no_overlap_witness :
  concat_vertically exact_ncc (strip 0 3 2) (strip 10 3 2) 2
  = Raise AttributeError.
Proof.
  apply (concat_vertically_no_overlap
           exact_ncc (strip 0 3 2) (strip 10 3 2) 2
           [[f32_zero]; [f32_zero]]).
  - reflexivity.
  - repeat constructor.
Defined.

(** ** ScaleLargeMap: retries, the cached target and the click count *)

Section ScaleLargeMapRounds.

Variable World : Type.
Variable screenshot : World -> Image.
Variable controller_click : World -> MatchResult -> bool * World.
Variable sleep_half_second : World -> World.
Variable crop_image : Image -> Rect -> Image.
Variable im_match_template : Image -> string -> string -> MatchResultList.
Variable OperationBase : Type.
Variable Operation_init : Z -> Z -> OperationBase.
Variable Operation_on_resume : OperationBase -> OperationBase.

Local Abbreviation get_click_pos :=
  (ScaleLargeMap.get_click_pos screenshot crop_image im_match_template).
Local Abbreviation execute_one_round :=
  (ScaleLargeMap._execute_one_round screenshot controller_click
     sleep_half_second crop_image im_match_template).
Local Abbreviation on_resume :=
  (ScaleLargeMap.on_resume screenshot crop_image im_match_template
     Operation_on_resume).
Local Abbreviation rounds :=
  (ScaleLargeMap.rounds screenshot controller_click sleep_half_second
     crop_image im_match_template).
Local Abbreviation final :=
  (rounds_state screenshot controller_click sleep_half_second crop_image
     im_match_template).






End ScaleLargeMapRounds.

(** A round of a freshly constructed operation, whatever the matcher would
    find. *)
Example execute_one_round_raises_example :
  ScaleLargeMap._execute_one_round
    (fun _ : nat => source_3x4) still_click (fun w => w) (fun img _ => img)
    still_matcher 7 (still_init 2)
  = (7, still_init 2, Raise AttributeError).
Proof. reflexivity. Qed.




(** ** The world graph: lookups by name *)

Open Scope string_scope.

(** X13. [get_planet_by_cn] finds a planet by its Chinese name: it returns
    a planet exactly when that planet is in [PLANET_LIST] and carries the
    name, so every planet of the list is found under its own name and any
    other name gives [None]. *)
Theorem get_planet_by_cn_spec (cn : string) (p : Planet.t) :
  get_planet_by_cn cn = Some p <-> In p PLANET_LIST /\ Planet.cn p = cn.
Proof.
  unfold get_planet_by_cn, PLANET_LIST. cbn [find].
  split.
  - intros E.
    destruct (String.eqb_spec (Planet.cn P01_KZJ) cn) as [E1|N1];
      [injection E as <-; simpl; tauto|].
    destruct (String.eqb_spec (Planet.cn P02_YYL) cn) as [E2|N2];
      [injection E as <-; simpl; tauto|].
    destruct (String.eqb_spec (Planet.cn P03_XZLF) cn) as [E3|N3];
      [injection E as <-; simpl; tauto|].
    discriminate E.
  - intros (Hin & <-). simpl in Hin.
    destruct Hin as [<-|[<-|[<-|[]]]]; reflexivity.
Qed.

Lemma dict_get_PLANET_2_REGION (key : string) (regions : list Region.t) :
  dict_get PLANET_2_REGION key = Ok regions ->
  In (key, regions) PLANET_2_REGION.
Proof.
  unfold PLANET_2_REGION. cbn [dict_get].
  destruct (String.eqb_spec (Planet.id P01_KZJ) key) as [<-|N1];
    [intros E; injection E as <-; simpl; auto|].
  destruct (String.eqb_spec (Planet.id P02_YYL) key) as [<-|N2];
    [intros E; injection E as <-; simpl; auto|].
  destruct (String.eqb_spec (Planet.id P03_XZLF) key) as [<-|N3];
    [intros E; injection E as <-; simpl; auto|].
  discriminate.
Qed.

Lemma get_region_by_cn_found (cn : string) (planet : Planet.t)
      (level : option Z) (r : Region.t) :
  get_region_by_cn cn planet level = Ok (Some r) ->
  exists regions,
    dict_get PLANET_2_REGION (Planet.id planet) = Ok regions /\
    In r regions /\ Region.cn r = cn /\
    (forall l, level = Some l -> Region.level r = l).
Proof.
  unfold get_region_by_cn. intros E.
  apply bind_Ok_inv in E as (regions & Hd & E).
  injection E as E. apply find_some in E as (Hin & Hp).
  apply andb_true_iff in Hp as (Hcn & Hl).
  apply String.eqb_eq in Hcn. exists regions. repeat split; auto.
  intros l ->. apply Z.eqb_eq. exact Hl.
Qed.

(** X14. [get_region_by_cn] with a level: it returns a region exactly when
    the region is listed under the planet's id in [PLANET_2_REGION] and has
    the name and the level asked for; so every listed region is found under
    its own planet, name and level. *)
Theorem get_region_by_cn_spec (cn : string) (planet : Planet.t) (level : Z)
        (r : Region.t) :
  get_region_by_cn cn planet (Some level) = Ok (Some r) <->
  (exists regions,
      dict_get PLANET_2_REGION (Planet.id planet) = Ok regions /\
      In r regions) /\
  Region.cn r = cn /\ Region.level r = level.
Proof.
  split.
  - intros E.
    apply get_region_by_cn_found in E as (regions & Hd & Hin & Hcn & Hl).
    split; [exists regions; auto | split; auto].
  - unfold get_region_by_cn.
    intros ((regions & Hd & Hin) & <- & <-). rewrite Hd. simpl.
    apply dict_get_PLANET_2_REGION in Hd. simpl in Hd.
    destruct Hd as [E|[E|[E|[]]]]; injection E as _ <-; simpl in Hin;
      repeat (destruct Hin as [<- | Hin]; [vm_compute; reflexivity|]);
      contradiction.
Qed.

(** X15. [get_region_by_cn] raises [KeyError] exactly for a planet whose id
    is not a key of [PLANET_2_REGION], whatever the name and the level. *)
Theorem get_region_by_cn_KeyError (cn : string) (planet : Planet.t)
        (level : option Z) :
  get_region_by_cn cn planet level = Raise KeyError <->
  ~ In (Planet.id planet) (map fst PLANET_2_REGION).
Proof.
  unfold get_region_by_cn, PLANET_2_REGION. cbn [dict_get map fst].
  destruct (String.eqb_spec (Planet.id P01_KZJ) (Planet.id planet)) as [E1|N1];
    [simpl; split; [discriminate | intros H; exfalso; apply H; auto]|].
  destruct (String.eqb_spec (Planet.id P02_YYL) (Planet.id planet)) as [E2|N2];
    [simpl; split; [discriminate | intros H; exfalso; apply H; auto]|].
  destruct (String.eqb_spec (Planet.id P03_XZLF) (Planet.id planet)) as [E3|N3];
    [simpl; split; [discriminate | intros H; exfalso; apply H; auto]|].
  simpl. split; [|reflexivity].
  intros _ [H|[H|[H|[]]]]; [apply N1|apply N2|apply N3]; exact H.
Qed.

Ltac floor_of_same_region Hd Hr Hcn :=
  simpl in Hd;
  destruct Hd as [Hd|[Hd|[Hd|[]]]];
  apply pair_equal_spec in Hd as (Hd & <-);
  vm_compute in Hd; try discriminate Hd;
  simpl in Hr;
  repeat (destruct Hr as [<- | Hr];
          [vm_compute in Hcn; try discriminate Hcn; repeat split; reflexivity|]);
  contradiction.

(** X16. [region_with_another_floor] on a region constant: a region it
    returns is a floor of the same region (same planet, id and name) at the
    level asked for; asked for the region's own level it returns the region
    itself; for [R0_GJCX], which has no planet, it raises [AttributeError]. *)
Theorem region_with_another_floor_spec (region : Region.t) :
  In region REGION_CONSTANTS ->
  (forall level r,
      region_with_another_floor region (Some level) = Ok (Some r) ->
      Region.planet r = Region.planet region /\
      Region.id r = Region.id region /\
      Region.cn r = Region.cn region /\
      Region.level r = level) /\
  (region <> R0_GJCX ->
   region_with_another_floor region (Some (Region.level region))
   = Ok (Some region)) /\
  (region = R0_GJCX ->
   forall level, region_with_another_floor region level = Raise AttributeError).
Proof.
  intros Hin. split; [|split].
  - intros level r E. unfold region_with_another_floor in E.
    destruct (Region.planet region) as [planet|] eqn:Hp; [|discriminate].
    apply get_region_by_cn_found in E as (regions & Hd & Hr & Hcn & Hl).
    specialize (Hl level eq_refl).
    apply dict_get_PLANET_2_REGION in Hd.
    assert (H3 : Region.planet r = Some planet /\
                 Region.id r = Region.id region /\
                 Region.cn r = Region.cn region);
      [|destruct H3 as (H1 & H2 & H3); auto].
    clear Hl. unfold REGION_CONSTANTS in Hin. simpl in Hin.
    repeat (destruct Hin as [<- | Hin];
            [simpl in Hp;
             first [discriminate Hp
                   | injection Hp as <-; floor_of_same_region Hd Hr Hcn]|]).
    contradiction.
  - intros Hne. unfold REGION_CONSTANTS in Hin. simpl in Hin.
    repeat (destruct Hin as [<- | Hin]; [try congruence; vm_compute; reflexivity|]).
    contradiction.
  - intros -> level. reflexivity.
Qed.

Lemma region_with_another_floor_spec_witness :
  (forall level r,
      region_with_another_floor P01_R03_SRCD_L1 (Some level) = Ok (Some r) ->
      Region.planet r = Region.planet P01_R03_SRCD_L1 /\
      Region.id r = Region.id P01_R03_SRCD_L1 /\
      Region.cn r = Region.cn P01_R03_SRCD_L1 /\
      Region.level r = level) /\
  (P01_R03_SRCD_L1 <> R0_GJCX ->
   region_with_another_floor P01_R03_SRCD_L1
                             (Some (Region.level P01_R03_SRCD_L1))
   = Ok (Some P01_R03_SRCD_L1)) /\
  (P01_R03_SRCD_L1 = R0_GJCX ->
   forall level,
     region_with_another_floor P01_R03_SRCD_L1 level = Raise AttributeError).
Proof.
  apply (region_with_another_floor_spec P01_R03_SRCD_L1).
  simpl. tauto.
Defined.

(** Floors of the example region: the basement exists, a third floor does
    not. *)
Example region_with_another_floor_examples :
  region_with_another_floor P01_R03_SRCD_L1 (Some (-1)%Z)
  = Ok (Some P01_R03_SRCD_B1) /\
  region_with_another_floor P01_R03_SRCD_L1 (Some 3%Z) = Ok None /\
  region_with_another_floor P01_R03_SRCD_L1 (Some 0%Z) = Ok None.
Proof. repeat split; reflexivity. Qed.

(** ** Transport points *)

(** A point answers a query of [get_sp_by_cn] when the names of its planet
    and region, the level of its region and its own name are the ones asked
    for. *)
Local Abbreviation answers i planet_cn region_cn level tp_cn :=
  (exists planet,
      TransportPoint.planet i = Some planet /\
      Planet.cn planet = planet_cn /\
      Region.cn (TransportPoint.region i) = region_cn /\
      Region.level (TransportPoint.region i) = level /\
      TransportPoint.cn i = tp_cn).

Lemma get_sp_by_cn_loop_spec (arr : list TransportPoint.t)
      (planet_cn region_cn : string) (level : Z) (tp_cn : string) :
  Forall (fun i => TransportPoint.planet i <> None) arr ->
  exists o,
    get_sp_by_cn_loop arr planet_cn region_cn level tp_cn = Ok o /\
    match o with
    | Some sp => In sp arr /\ answers sp planet_cn region_cn level tp_cn
    | None =>
        forall i, In i arr -> ~ answers i planet_cn region_cn level tp_cn
    end.
Proof.
  induction 1 as [|i arr Hi Harr IH]; simpl.
  - exists None. split; [reflexivity|]. intros i [].
  - destruct (TransportPoint.planet i) as [planet|] eqn:Hp; [|congruence].
    destruct IH as (o & Ho & Hspec).
    assert (Hskip : ~ answers i planet_cn region_cn level tp_cn ->
              exists o0,
                get_sp_by_cn_loop arr planet_cn region_cn level tp_cn = Ok o0 /\
                match o0 with
                | Some sp => (i = sp \/ In sp arr) /\
                             answers sp planet_cn region_cn level tp_cn
                | None => forall i0, i = i0 \/ In i0 arr ->
                            ~ answers i0 planet_cn region_cn level tp_cn
                end).
    { intros Hno. exists o. split; [exact Ho|]. destruct o as [sp|].
      - destruct Hspec; auto.
      - intros i0 [<- | Hin]; auto. }
    destruct (String.eqb_spec (Planet.cn planet) planet_cn) as [E1|N1]; simpl;
      [|apply Hskip; intros (q & Hq & H1 & _); congruence].
    destruct (String.eqb_spec (Region.cn (TransportPoint.region i)) region_cn)
      as [E2|N2]; simpl;
      [|apply Hskip; intros (q & _ & _ & H2 & _); congruence].
    destruct (Z.eqb_spec (Region.level (TransportPoint.region i)) level)
      as [E3|N3]; simpl;
      [|apply Hskip; intros (q & _ & _ & _ & H3 & _); congruence].
    destruct (String.eqb_spec (TransportPoint.cn i) tp_cn) as [E4|N4]; simpl;
      [|apply Hskip; intros (q & _ & _ & _ & _ & H4); congruence].
    exists (Some i). split; [reflexivity|]. split; [auto|].
    exists planet. auto.
Qed.

(** X17. [get_sp_by_cn] never raises; a point it returns is one of its list
    [arr] and has the planet name, region name, level and name asked for,
    and it returns [None] only when no point of the list has them. *)
Theorem get_sp_by_cn_spec (planet_cn region_cn : string) (level : Z)
        (tp_cn : string) :
  exists o,
    get_sp_by_cn planet_cn region_cn level tp_cn = Ok o /\
    match o with
    | Some sp =>
        In sp get_sp_by_cn_arr /\ answers sp planet_cn region_cn level tp_cn
    | None =>
        forall i, In i get_sp_by_cn_arr ->
                  ~ answers i planet_cn region_cn level tp_cn
    end.
Proof.
  apply get_sp_by_cn_loop_spec.
  unfold get_sp_by_cn_arr. repeat constructor; discriminate.
Qed.

(** X18. The named transport point constants, looked up under their own
    planet, region, level and name: those of all regions but [P02_R05] and
    [P02_R10] are found; those of [P02_R05] and [P02_R10] are defined but
    missing from the list [get_sp_by_cn] searches, and give [None]. *)
Theorem get_sp_by_cn_constants (sp : TransportPoint.t) (planet : Planet.t) :
  In sp TRANSPORT_POINT_CONSTANTS ->
  TransportPoint.cn sp <> EmptyString ->
  TransportPoint.planet sp = Some planet ->
  (TransportPoint.region sp <> P02_R05 ->
   TransportPoint.region sp <> P02_R10 ->
   get_sp_by_cn (Planet.cn planet) (Region.cn (TransportPoint.region sp))
                (Region.level (TransportPoint.region sp)) (TransportPoint.cn sp)
   = Ok (Some sp)) /\
  (TransportPoint.region sp = P02_R05 \/ TransportPoint.region sp = P02_R10 ->
   get_sp_by_cn (Planet.cn planet) (Region.cn (TransportPoint.region sp))
                (Region.level (TransportPoint.region sp)) (TransportPoint.cn sp)
   = Ok None).
Proof.
  intros Hin Hne Hp. unfold TRANSPORT_POINT_CONSTANTS in Hin. simpl in Hin.
  repeat (destruct Hin as [<- | Hin];
          [first
             [ exfalso; apply Hne; reflexivity
             | simpl in Hp; injection Hp as <-;
               split;
               [ intros H5 H10;
                 first [ vm_compute; reflexivity
                       | exfalso;
                         first [apply H5; reflexivity | apply H10; reflexivity] ]
               | intros [H|H];
                 first [ vm_compute; reflexivity
                       | vm_compute in H; discriminate H ] ] ]|]).
  contradiction.
Qed.

Lemma get_sp_by_cn_constants_witness :
  (TransportPoint.region P02_R10_SP01 <> P02_R05 ->
   TransportPoint.region P02_R10_SP01 <> P02_R10 ->
   get_sp_by_cn (Planet.cn P02_YYL)
                (Region.cn (TransportPoint.region P02_R10_SP01))
                (Region.level (TransportPoint.region P02_R10_SP01))
                (TransportPoint.cn P02_R10_SP01)
   = Ok (Some P02_R10_SP01)) /\
  (TransportPoint.region P02_R10_SP01 = P02_R05 \/
   TransportPoint.region P02_R10_SP01 = P02_R10 ->
   get_sp_by_cn (Planet.cn P02_YYL)
                (Region.cn (TransportPoint.region P02_R10_SP01))
                (Region.level (TransportPoint.region P02_R10_SP01))
                (TransportPoint.cn P02_R10_SP01)
   = Ok None).
Proof.
  apply (get_sp_by_cn_constants P02_R10_SP01 P02_YYL).
  - unfold TRANSPORT_POINT_CONSTANTS.
    repeat (first [left; reflexivity | right]).
  - discriminate.
  - reflexivity.
Defined.

(** ** Special points grouped by template *)

Lemma sp_map_append_lookup (sp_map : list (string * list TransportPoint.t))
      (sp : TransportPoint.t) (k : string) :
  dict_lookup (sp_map_append sp_map sp) k =
  if String.eqb (TransportPoint.template_id sp) k
  then Some (match dict_lookup sp_map k with
             | Some g => (g ++ [sp])%list
             | None => [sp]
             end)
  else dict_lookup sp_map k.
Proof.
  induction sp_map as [|[k0 g0] sp_map IH]; simpl.
  - reflexivity.
  - destruct (String.eqb_spec k0 (TransportPoint.template_id sp)) as [E0|N0];
      simpl.
    + subst k0.
      destruct (String.eqb_spec (TransportPoint.template_id sp) k);
        reflexivity.
    + rewrite IH.
      destruct (String.eqb_spec k0 k) as [<-|Nk];
        destruct (String.eqb_spec (TransportPoint.template_id sp) k0)
          as [E1|N1]; try congruence; try reflexivity.
Qed.

Lemma sp_map_append_keys (sp_map : list (string * list TransportPoint.t))
      (sp : TransportPoint.t) :
  NoDup (map fst sp_map) -> NoDup (map fst (sp_map_append sp_map sp)).
Proof.
  assert (Hkeys : forall m k, In k (map fst (sp_map_append m sp)) ->
                              k = TransportPoint.template_id sp \/
                              In k (map fst m)).
  { induction m as [|[k0 g0] m IH]; simpl; intros k Hk.
    - destruct Hk as [<-|[]]; auto.
    - destruct (String.eqb k0 (TransportPoint.template_id sp)); simpl in Hk.
      + auto.
      + destruct Hk as [<-|Hk]; auto. apply IH in Hk. tauto. }
  induction sp_map as [|[k0 g0] sp_map IH]; simpl; intros Hnd.
  - repeat constructor. intros [].
  - inversion Hnd as [|? ? Hnotin Hnd']; subst.
    destruct (String.eqb_spec k0 (TransportPoint.template_id sp)) as [E0|N0];
      simpl.
    + constructor; assumption.
    + constructor; [|auto]. intros Hk. apply Hkeys in Hk.
      destruct Hk as [-> | Hk]; [congruence | contradiction].
Qed.

Section SpecialPointsFacts.

Variable rect_tuple : Type.
Variable in_rect : Z * Z -> rect_tuple -> bool.

(** The points of [sp_list] selected by [rect] that use the template [k],
    in the order of the list. *)
Let selected (rect : option rect_tuple) (k : string)
    (sp_list : list TransportPoint.t) : list TransportPoint.t :=
  filter (fun sp => in_rect_or_all in_rect rect sp
                    && String.eqb (TransportPoint.template_id sp) k) sp_list.

Lemma group_by_template_fold rect (sp_list : list TransportPoint.t)
      (sp_map : list (string * list TransportPoint.t)) :
  let step := fun m sp =>
                if in_rect_or_all in_rect rect sp then sp_map_append m sp
                else m in
  (NoDup (map fst sp_map) -> NoDup (map fst (fold_left step sp_list sp_map))) /\
  forall k,
    dict_lookup (fold_left step sp_list sp_map) k =
    match dict_lookup sp_map k, selected rect k sp_list with
    | None, [] => None
    | None, g => Some g
    | Some g0, g => Some (g0 ++ g)%list
    end.
Proof.
  simpl. revert sp_map; induction sp_list as [|sp sp_list IH]; intros sp_map.
  - simpl. split; [auto|]. intros k.
    destruct (dict_lookup sp_map k); [rewrite app_nil_r|]; reflexivity.
  - simpl. destruct (in_rect_or_all in_rect rect sp) eqn:Hsel; simpl.
    + destruct (IH (sp_map_append sp_map sp)) as (Hnd & Hlook).
      split; [intros H; apply Hnd, sp_map_append_keys, H|].
      intros k. rewrite Hlook, sp_map_append_lookup. unfold selected.
      destruct (String.eqb (TransportPoint.template_id sp) k); simpl.
      * destruct (dict_lookup sp_map k) as [g0|].
        -- rewrite <- app_assoc. reflexivity.
        -- reflexivity.
      * reflexivity.
    + apply IH.
Qed.

(** X19. When [get_sp_type_in_rect] returns, the region has an entry in
    [REGION_2_SP], the keys of the returned map are distinct, and under each
    template id the map holds the points of the entry that lie in the
    rectangle (all points when the rectangle is [None]) and use that
    template, in the order of the entry; a template without such a point is
    no key of the map. *)
Theorem get_sp_type_in_rect_groups (region : Region.t)
        (rect : option rect_tuple)
        (sp_map : list (string * list TransportPoint.t)) :
  get_sp_type_in_rect in_rect region rect = Returns sp_map ->
  exists d key sp_list,
    REGION_2_SP = Ok d /\ get_pr_id region = Ok key /\
    dict_lookup d key = Some sp_list /\
    NoDup (map fst sp_map) /\
    forall k,
      dict_lookup sp_map k =
      match selected rect k sp_list with
      | [] => None
      | g => Some g
      end.
Proof.
  unfold get_sp_type_in_rect.
  destruct REGION_2_SP as [d|e]; [|discriminate].
  destruct (get_pr_id region) as [key|e]; [|discriminate].
  destruct (dict_lookup d key) as [sp_list|] eqn:Hl; [|discriminate].
  intros E; injection E as <-.
  exists d, key, sp_list. repeat split; auto.
  - apply (group_by_template_fold rect sp_list []). constructor.
  - intros k.
    destruct (group_by_template_fold rect sp_list []) as (_ & Hlook).
    unfold group_by_template. rewrite Hlook. simpl.
    destruct (selected rect k sp_list); reflexivity.
Qed.

End SpecialPointsFacts.

Lemma dict_lookup_None {V : Type} (d : list (string * V)) (key : string) :
  dict_lookup d key = None <-> ~ In key (map fst d).
Proof.
  induction d as [|[k v] d IH]; simpl.
  - tauto.
  - destruct (String.eqb_spec k key) as [->|N].
    + split; [discriminate | intros H; exfalso; auto].
    + rewrite IH. tauto.
Qed.

(** The dict that the module builds. *)
Lemma REGION_2_SP_keys :
  exists d, REGION_2_SP = Ok d /\
            map fst d = ["kjzht-zkcd"; "kjzht-jzcd"; "kjzht-srcd"; "kjzht-zycd";
                         "yll6-cjxy"; "yll6-bytl"; "yll6-cxhl"; "yll6-ydl";
                         "yll6-dkq"].
Proof.
  eexists. split; [vm_compute; reflexivity | reflexivity].
Qed.

(** X20. [get_sp_type_in_rect] raises [TypeError] exactly for a region with
    a planet whose planet and region ids have no entry in [REGION_2_SP], and
    [AttributeError] exactly for a region without planet; the rectangle
    plays no part in it. *)
Theorem get_sp_type_in_rect_errors (rect_tuple : Type)
        (in_rect : Z * Z -> rect_tuple -> bool)
        (region : Region.t) (rect : option rect_tuple) :
  (get_sp_type_in_rect in_rect region rect = Throws TypeError <->
   exists key,
     get_pr_id region = Ok key /\
     ~ In key ["kjzht-zkcd"; "kjzht-jzcd"; "kjzht-srcd"; "kjzht-zycd";
               "yll6-cjxy"; "yll6-bytl"; "yll6-cxhl"; "yll6-ydl";
               "yll6-dkq"]) /\
  (get_sp_type_in_rect in_rect region rect = Throws (Builtin AttributeError) <->
   Region.planet region = None).
Proof.
  destruct REGION_2_SP_keys as (d & Hd & Hkeys). rewrite <- Hkeys.
  unfold get_sp_type_in_rect. rewrite Hd. unfold get_pr_id, planet_id.
  destruct (Region.planet region) as [planet|]; simpl.
  - destruct (dict_lookup d _) as [sp_list|] eqn:Hl.
    + split.
      * split; [discriminate|]. intros (key & E & Hn). injection E as <-.
        apply dict_lookup_None in Hn. congruence.
      * split; discriminate.
    + split.
      * split; [|reflexivity]. intros _. eexists. split; [reflexivity|].
        apply dict_lookup_None. exact Hl.
      * split; discriminate.
  - split.
    + split; [discriminate|]. intros (key & E & _). discriminate E.
    + split; reflexivity.
Qed.

Close Scope string_scope.

(** ** The longest common subsequence *)

Lemma lcs_rec_cons (a b : N) (l1 l2 : pystr) :
  lcs_rec (a :: l1) (b :: l2) =
  if N.eqb a b then S (lcs_rec l1 l2)
  else Nat.max (lcs_rec l1 (b :: l2)) (lcs_rec (a :: l1) l2).
Proof. reflexivity. Qed.

Lemma lcs_rec_nil_r (l : pystr) : lcs_rec l [] = 0.
Proof. destruct l; reflexivity. Qed.

Lemma Subseq_nil_l {A : Type} (l : list A) : Subseq [] l.
Proof. induction l; constructor; assumption. Qed.

Lemma Subseq_refl {A : Type} (l : list A) : Subseq l l.
Proof. induction l; constructor; assumption. Qed.

Lemma Subseq_length {A : Type} (c l : list A) :
  Subseq c l -> List.length c <= List.length l.
Proof. induction 1; simpl; lia. Qed.

Lemma Subseq_full {A : Type} (c l : list A) :
  Subseq c l -> List.length c = List.length l -> c = l.
Proof.
  induction 1 as [|a c l H IH|a c l H IH]; simpl; intros E.
  - reflexivity.
  - apply Subseq_length in H. lia.
  - f_equal. apply IH. lia.
Qed.

Lemma Subseq_tail {A : Type} (a : A) (c l : list A) :
  Subseq (a :: c) l -> Subseq c l.
Proof.
  intros H. remember (a :: c) as ac eqn:E. revert a c E.
  induction H as [|b c' l H IH|b c' l H IH]; intros a c E.
  - discriminate.
  - constructor. eapply IH. exact E.
  - injection E as -> ->. constructor. exact H.
Qed.

Lemma Subseq_cons_inv {A : Type} (a b : A) (c l : list A) :
  Subseq (a :: c) (b :: l) ->
  (a = b /\ Subseq c l) \/ Subseq (a :: c) l.
Proof.
  intros H. inversion H; subst; auto.
Qed.

Lemma Subseq_app {A : Type} (c1 l1 c2 l2 : list A) :
  Subseq c1 l1 -> Subseq c2 l2 -> Subseq (c1 ++ c2) (l1 ++ l2).
Proof.
  intros H1 H2. induction H1; simpl; try constructor; assumption.
Qed.

Lemma Subseq_rev {A : Type} (c l : list A) :
  Subseq c l -> Subseq (rev c) (rev l).
Proof.
  induction 1 as [|a c l H IH|a c l H IH]; simpl.
  - constructor.
  - rewrite <- (app_nil_r (rev c)). apply Subseq_app; [exact IH|].
    apply Subseq_nil_l.
  - apply Subseq_app; [exact IH | apply Subseq_refl].
Qed.

(** [lcs_rec] is the length of some common subsequence... *)
Lemma lcs_rec_achieved (l1 l2 : pystr) :
  exists c, Subseq c l1 /\ Subseq c l2 /\ List.length c = lcs_rec l1 l2.
Proof.
  revert l2; induction l1 as [|a l1 IH1]; intros l2.
  - exists []. repeat split; try apply Subseq_nil_l.
  - induction l2 as [|b l2 IH2].
    + exists []. repeat split; try apply Subseq_nil_l.
    + rewrite lcs_rec_cons. destruct (N.eqb_spec a b) as [<-|Hne].
      * destruct (IH1 l2) as (c & H1 & H2 & Hlen).
        exists (a :: c). repeat split; try (constructor; assumption).
        simpl. congruence.
      * destruct (Nat.max_spec (lcs_rec l1 (b :: l2)) (lcs_rec (a :: l1) l2))
          as [(_ & ->) | (_ & ->)].
        -- destruct IH2 as (c & H1 & H2 & Hlen).
           exists c. repeat split; try assumption. constructor; assumption.
        -- destruct (IH1 (b :: l2)) as (c & H1 & H2 & Hlen).
           exists c. repeat split; try assumption. constructor; assumption.
Qed.

(** ... and no common subsequence is longer. *)
Lemma lcs_rec_optimal (l1 l2 c : pystr) :
  Subseq c l1 -> Subseq c l2 -> List.length c <= lcs_rec l1 l2.
Proof.
  revert l2 c; induction l1 as [|a l1 IH1]; intros l2 c H1 H2.
  - inversion H1; subst. simpl. lia.
  - revert c H1 H2. induction l2 as [|b l2 IH2]; intros c H1 H2.
    + inversion H2; subst. simpl. lia.
    + rewrite lcs_rec_cons. destruct c as [|x c]; [simpl; lia|].
      destruct (N.eqb_spec a b) as [<-|Hne].
      * assert (Hc1 : Subseq c l1).
        { apply Subseq_cons_inv in H1 as [(_ & H)|H]; [exact H|].
          eapply Subseq_tail; exact H. }
        assert (Hc2 : Subseq c l2).
        { apply Subseq_cons_inv in H2 as [(_ & H)|H]; [exact H|].
          eapply Subseq_tail; exact H. }
        specialize (IH1 l2 c Hc1 Hc2). simpl. lia.
      * apply Subseq_cons_inv in H1 as [(-> & H1)|H1].
        -- apply Subseq_cons_inv in H2 as [(-> & H2)|H2]; [congruence|].
           assert (Ha : Subseq (a :: c) (a :: l1)) by (constructor; exact H1).
           specialize (IH2 (a :: c) Ha H2). lia.
        -- specialize (IH1 (b :: l2) (x :: c) H1 H2). lia.
Qed.

Lemma lcs_rec_rev (l1 l2 : pystr) :
  lcs_rec (rev l1) (rev l2) = lcs_rec l1 l2.
Proof.
  apply Nat.le_antisymm.
  - destruct (lcs_rec_achieved (rev l1) (rev l2)) as (c & H1 & H2 & <-).
    rewrite <- (length_rev c). apply lcs_rec_optimal.
    + rewrite <- (rev_involutive l1). apply Subseq_rev. exact H1.
    + rewrite <- (rev_involutive l2). apply Subseq_rev. exact H2.
  - destruct (lcs_rec_achieved l1 l2) as (c & H1 & H2 & <-).
    rewrite <- (length_rev c). apply lcs_rec_optimal; apply Subseq_rev;
      assumption.
Qed.

Lemma lcs_rec_sym (l1 l2 : pystr) : lcs_rec l1 l2 = lcs_rec l2 l1.
Proof.
  apply Nat.le_antisymm.
  - destruct (lcs_rec_achieved l1 l2) as (c & H1 & H2 & <-).
    apply lcs_rec_optimal; assumption.
  - destruct (lcs_rec_achieved l2 l1) as (c & H1 & H2 & <-).
    apply lcs_rec_optimal; assumption.
Qed.

Lemma for_each_app {A S : Type} (body : S -> A -> res S) (l1 l2 : list A)
      (s s1 : S) :
  for_each body l1 s = Ok s1 ->
  for_each body (l1 ++ l2) s = for_each body l2 s1.
Proof.
  revert s; induction l1 as [|a l1 IH]; simpl; intros s E.
  - injection E as <-. reflexivity.
  - apply bind_Ok_inv in E as (s' & Hs' & E). rewrite Hs'. simpl.
    apply IH. exact E.
Qed.

Lemma nth_error_map_seq {A : Type} (f : nat -> A) (start len i : nat) :
  i < len -> nth_error (map f (seq start len)) i = Some (f (start + i)).
Proof.
  revert start i; induction len as [|len IH]; intros start i Hi; [lia|].
  destruct i as [|i]; simpl.
  - rewrite Nat.add_0_r. reflexivity.
  - rewrite IH by lia. f_equal. f_equal. lia.
Qed.

Lemma list_set_map_seq {A : Type} (f : nat -> A) (start len i : nat) (v : A) :
  i < len ->
  list_set (map f (seq start len)) i v =
  Ok (map (fun k => if k =? start + i then v else f k) (seq start len)).
Proof.
  revert start i; induction len as [|len IH]; intros start i Hi; [lia|].
  destruct i as [|i]; simpl.
  - rewrite Nat.add_0_r, Nat.eqb_refl. f_equal. f_equal.
    apply map_ext_in. intros k Hk. apply in_seq in Hk.
    destruct (Nat.eqb_spec k start); [lia | reflexivity].
  - rewrite IH by lia. simpl.
    destruct (Nat.eqb_spec start (start + S i)); [lia|].
    f_equal. f_equal. apply map_ext. intros k.
    replace (start + S i) with (S start + i) by lia. reflexivity.
Qed.

Lemma firstn_S_nth {A : Type} (l : list A) (k : nat) (a : A) :
  nth_error l k = Some a -> firstn (S k) l = firstn k l ++ [a].
Proof.
  revert k; induction l as [|b l IH]; intros [|k]; simpl; intros E;
    try discriminate.
  - injection E as ->. reflexivity.
  - rewrite <- (IH k E). reflexivity.
Qed.

Section LcsTable.

Variables str1 str2 : pystr.

Local Abbreviation len1 := (List.length str1).
Local Abbreviation len2 := (List.length str2).

(** The value the table holds at row [a], column [b] once filled: the
    length for the first [a] code points of [str1] and the first [b] of
    [str2]. *)
Let L (a b : nat) : nat :=
  lcs_rec (rev (firstn a str1)) (rev (firstn b str2)).

(** The entries written when the loops have reached row [i], column [j]. *)
Let written (i j a b : nat) : bool :=
  (a <? i) || ((a =? i) && (b <=? j)).

Let T (i j : nat) : list (list Z) :=
  map (fun a =>
         map (fun b => if written i j a b then Z.of_nat (L a b) else 0%Z)
             (seq 0 (len2 + 1)))
      (seq 0 (len1 + 1)).

Lemma L_0_r (a : nat) : L a 0 = 0.
Proof. unfold L. simpl. apply lcs_rec_nil_r. Qed.

Lemma L_0_l (b : nat) : L 0 b = 0.
Proof. reflexivity. Qed.

Lemma L_step (a b : nat) (c1 c2 : N) :
  nth_error str1 a = Some c1 -> nth_error str2 b = Some c2 ->
  L (S a) (S b) =
  if N.eqb c1 c2 then S (L a b) else Nat.max (L a (S b)) (L (S a) b).
Proof.
  intros H1 H2. unfold L.
  rewrite (firstn_S_nth str1 a c1 H1), (firstn_S_nth str2 b c2 H2).
  rewrite !rev_app_distr. simpl. reflexivity.
Qed.

Lemma T_index (i j a b : nat) :
  a <= len1 -> b <= len2 ->
  index2 (T i j) a b
  = Ok (if written i j a b then Z.of_nat (L a b) else 0%Z).
Proof.
  intros Ha Hb. unfold index2, T.
  rewrite nth_error_map_seq by lia. rewrite nth_error_map_seq by lia.
  reflexivity.
Qed.

Lemma T_set (i j : nat) :
  1 <= i <= len1 -> 1 <= j <= len2 ->
  table_set (T i (j - 1)) i j (Z.of_nat (L i j)) = Ok (T i j).
Proof.
  intros Hi Hj. unfold table_set, T.
  rewrite nth_error_map_seq by lia.
  rewrite list_set_map_seq by lia. simpl bind.
  rewrite list_set_map_seq by lia. f_equal.
  apply map_ext_in. intros a Ha. apply in_seq in Ha. simpl.
  destruct (Nat.eqb_spec a i) as [->|Hne].
  - apply map_ext_in. intros b Hb. apply in_seq in Hb. unfold written.
    destruct (Nat.eqb_spec b j) as [->|Hbj].
    + rewrite Nat.eqb_refl. replace (j <=? j) with true
        by (symmetry; apply Nat.leb_le; lia).
      rewrite orb_true_r. reflexivity.
    + rewrite Nat.eqb_refl. simpl andb.
      replace (b <=? j - 1) with (b <=? j); [reflexivity|].
      destruct (Nat.leb_spec b j), (Nat.leb_spec b (j - 1)); lia || reflexivity.
  - apply map_ext_in. intros b Hb. unfold written.
    destruct (Nat.eqb_spec a i); [lia|]. reflexivity.
Qed.

Lemma lcs_body_T (i j : nat) :
  1 <= i <= len1 -> 1 <= j <= len2 ->
  lcs_body str1 str2 i (T i (j - 1)) j = Ok (T i j).
Proof.
  intros Hi Hj. unfold lcs_body, str_at.
  destruct (nth_error str1 (i - 1)) as [c1|] eqn:H1;
    [|apply nth_error_None in H1; exfalso; lia].
  destruct (nth_error str2 (j - 1)) as [c2|] eqn:H2;
    [|apply nth_error_None in H2; exfalso; lia].
  simpl bind.
  pose proof (L_step (i - 1) (j - 1) c1 c2 H1 H2) as Hstep.
  replace (S (i - 1)) with i in Hstep by lia.
  replace (S (j - 1)) with j in Hstep by lia.
  rewrite !T_index by lia. unfold written.
  replace (i - 1 <? i) with true by (symmetry; apply Nat.ltb_lt; lia).
  rewrite Nat.eqb_refl.
  replace (j - 1 <=? j - 1) with true by (symmetry; apply Nat.leb_le; lia).
  simpl orb. simpl andb. rewrite ?orb_true_r. simpl bind.
  destruct (N.eqb c1 c2).
  - rewrite <- (T_set i j Hi Hj). f_equal. rewrite Hstep. lia.
  - rewrite <- (T_set i j Hi Hj). f_equal. rewrite Hstep.
    rewrite Nat2Z.inj_max. reflexivity.
Qed.

Lemma inner_loop_T (i k : nat) :
  1 <= i <= len1 -> k <= len2 ->
  for_each (lcs_body str1 str2 i) (seq 1 k) (T i 0) = Ok (T i k).
Proof.
  intros Hi. induction k as [|k IH]; intros Hk.
  - reflexivity.
  - rewrite seq_S, (for_each_app _ _ _ _ _ (IH ltac:(lia))). simpl.
    replace k with (S k - 1) at 1 by lia.
    rewrite lcs_body_T by lia. reflexivity.
Qed.

Lemma T_next_row (i : nat) : T i len2 = T (S i) 0.
Proof.
  unfold T. apply map_ext_in. intros a Ha.
  apply map_ext_in. intros b Hb. apply in_seq in Hb. unfold written.
  destruct (Nat.ltb_spec a i), (Nat.ltb_spec a (S i)),
           (Nat.eqb_spec a i), (Nat.eqb_spec a (S i)),
           (Nat.leb_spec b len2), (Nat.leb_spec b 0);
    simpl; try lia; try reflexivity.
  replace b with 0 by lia. rewrite L_0_r. reflexivity.
Qed.

Lemma outer_loop_T (k : nat) :
  k <= len1 ->
  for_each (fun dp i => for_each (lcs_body str1 str2 i) (seq 1 len2) dp)
           (seq 1 k) (T 0 len2)
  = Ok (T k len2).
Proof.
  induction k as [|k IH]; intros Hk.
  - reflexivity.
  - rewrite seq_S, (for_each_app _ _ _ _ _ (IH ltac:(lia))). simpl.
    rewrite T_next_row. rewrite inner_loop_T by lia. reflexivity.
Qed.

Lemma T_initial : repeat (repeat 0%Z (len2 + 1)) (len1 + 1) = T 0 len2.
Proof.
  unfold T.
  assert (Hrep : forall (A B : Type) (f : A -> B) (c : B) (l : list A),
             (forall x, In x l -> f x = c) ->
             map f l = repeat c (List.length l)).
  { intros A B f c l. induction l as [|x l IH]; simpl; intros H;
      [reflexivity|].
    rewrite H by auto. f_equal. apply IH. auto. }
  rewrite (Hrep _ _ _ (repeat 0%Z (len2 + 1))), length_seq; [reflexivity|].
  intros a Ha.
  rewrite (Hrep _ _ _ 0%Z), length_seq; [reflexivity|].
  intros b Hb. unfold written.
  destruct (Nat.eqb_spec a 0) as [->|]; simpl; [|reflexivity].
  destruct (b <=? len2); reflexivity.
Qed.

(** The table computes [lcs_rec], on the strings read backwards. *)
Lemma longest_common_subsequence_length_table :
  longest_common_subsequence_length str1 str2
  = Ok (Z.of_nat (lcs_rec (rev str1) (rev str2))).
Proof.
  unfold longest_common_subsequence_length.
  rewrite T_initial, (outer_loop_T len1 (Nat.le_refl len1)). simpl bind.
  rewrite T_index by lia. unfold written, L.
  rewrite Nat.eqb_refl.
  replace (len2 <=? len2) with true by (symmetry; apply Nat.leb_le; lia).
  rewrite orb_true_r. rewrite !firstn_all. reflexivity.
Qed.

End LcsTable.

Lemma longest_common_subsequence_length_rec (str1 str2 : pystr) :
  longest_common_subsequence_length str1 str2
  = Ok (Z.of_nat (lcs_rec str1 str2)).
Proof.
  rewrite longest_common_subsequence_length_table, lcs_rec_rev. reflexivity.
Qed.

(** X21. [longest_common_subsequence_length] never raises and returns the
    length of a longest common subsequence: some common subsequence of the
    two strings has the returned length, and none is longer. *)
Theorem longest_common_subsequence_length_optimal (str1 str2 : pystr) :
  exists c,
    longest_common_subsequence_length str1 str2
    = Ok (Z.of_nat (List.length c)) /\
    Subseq c str1 /\ Subseq c str2 /\
    forall c', Subseq c' str1 -> Subseq c' str2 ->
               List.length c' <= List.length c.
Proof.
  destruct (lcs_rec_achieved str1 str2) as (c & H1 & H2 & Hlen).
  exists c. rewrite longest_common_subsequence_length_rec, Hlen.
  repeat split; try assumption.
  intros c' H1' H2'. apply lcs_rec_optimal; assumption.
Qed.

(** X22. [longest_common_subsequence_length] does not depend on the order
    of its two arguments. *)
Theorem longest_common_subsequence_length_sym (str1 str2 : pystr) :
  longest_common_subsequence_length str1 str2
  = longest_common_subsequence_length str2 str1.
Proof.
  rewrite !longest_common_subsequence_length_rec, lcs_rec_sym. reflexivity.
Qed.

(** X23. The length [longest_common_subsequence_length] returns is at most
    the length of either string, and it equals the length of the first
    string exactly when the first string is a subsequence of the second. *)
Theorem longest_common_subsequence_length_full (str1 str2 : pystr) :
  exists r,
    longest_common_subsequence_length str1 str2 = Ok r /\
    (0 <= r <= Z.of_nat (Nat.min (List.length str1) (List.length str2)))%Z /\
    (r = Z.of_nat (List.length str1) <-> Subseq str1 str2).
Proof.
  exists (Z.of_nat (lcs_rec str1 str2)).
  split; [apply longest_common_subsequence_length_rec|].
  destruct (lcs_rec_achieved str1 str2) as (c & H1 & H2 & Hlen).
  pose proof (Subseq_length c str1 H1) as Hl1.
  pose proof (Subseq_length c str2 H2) as Hl2.
  split; [lia|]. split.
  - intros E. assert (Hc : c = str1) by (apply Subseq_full; [exact H1 | lia]).
    subst c. exact H2.
  - intros Hsub.
    pose proof (lcs_rec_optimal str1 str2 str1 (Subseq_refl str1) Hsub).
    lia.
Qed.

(** ** find_max_circle: equal radii *)

Lemma fold_keep_larger_first (pre post : list (Z * Z * Z)) (acc c : Z * Z * Z) :
  (snd acc < snd c)%Z ->
  Forall (fun t => (snd t < snd c)%Z) pre ->
  Forall (fun t => (snd t <= snd c)%Z) post ->
  fold_left keep_larger (pre ++ c :: post) acc = c.
Proof.
  assert (Hpost : forall post, Forall (fun t => (snd t <= snd c)%Z) post ->
                               fold_left keep_larger post c = c).
  { induction 1 as [|t post' Ht _ IH]; simpl; [reflexivity|].
    replace (keep_larger c t) with c; [exact IH|].
    unfold keep_larger. destruct c as [[? ?] rc], t as [[? ?] rt]. simpl in *.
    destruct (Z.ltb_spec rc rt); [lia | reflexivity]. }
  intros Hacc Hpre. revert acc Hacc.
  induction Hpre as [|t pre Ht _ IH]; simpl; intros acc Hacc Hp.
  - replace (keep_larger acc c) with c; [apply Hpost; exact Hp|].
    unfold keep_larger. destruct acc as [[? ?] ra], c as [[? ?] rc].
    simpl in *. destruct (Z.ltb_spec ra rc); [reflexivity | lia].
  - apply IH; [|exact Hp].
    unfold keep_larger. destruct acc as [[? ?] ra], t as [[? ?] rt].
    simpl in *. destruct (Z.ltb_spec ra rt); simpl; lia.
Qed.

(** X24. Among reported circles of equal largest radius [find_max_circle]
    returns the one reported first: a circle is returned when every circle
    before it has a smaller rounded radius and no circle after it has a
    larger one. *)
Theorem find_max_circle_first_of_equal cvtColor hough image gray
        (pre post : list Circle) (c : Circle) :
  cvtColor image = Ok gray ->
  cv2_HoughCircles hough gray (12 # 10) (100 # 1) 160 200
  = Some (pre ++ c :: post) ->
  Forall (fun c' => (snd (round_circle c') < snd (round_circle c))%Z) pre ->
  Forall (fun c' => (snd (round_circle c') <= snd (round_circle c))%Z) post ->
  find_max_circle cvtColor hough image = Ok (round_circle c).
Proof.
  intros Hgray Hsome Hpre Hpost. unfold find_max_circle.
  rewrite Hgray. simpl. rewrite Hsome. f_equal.
  apply cv2_HoughCircles_in_bounds in Hsome as (_ & Hb).
  rewrite map_app. simpl. apply fold_keep_larger_first.
  - rewrite Forall_app in Hb. destruct Hb as (_ & Hb).
    apply Forall_inv in Hb. destruct Hb as (_ & Hb).
    unfold round_circle, np_uint16. simpl.
    rewrite Z.mod_small by lia. lia.
  - apply Forall_map. exact Hpre.
  - apply Forall_map. exact Hpost.
Qed.

Lemma find_max_circle_first_of_equal_witness :
  find_max_circle first_channel
    (fun _ _ _ => [mkCircle (10 # 1) (20 # 1) (180 # 1);
                   mkCircle (30 # 1) (40 # 1) (180 # 1)])
    source_3x4
  = Ok (round_circle (mkCircle (10 # 1) (20 # 1) (180 # 1))).
Proof.
  apply (find_max_circle_first_of_equal first_channel
           (fun _ _ _ => [mkCircle (10 # 1) (20 # 1) (180 # 1);
                          mkCircle (30 # 1) (40 # 1) (180 # 1)])
           source_3x4 [[1; 2; 3; 4]; [5; 6; 7; 8]; [9; 10; 11; 12]]%Z
           [] [mkCircle (30 # 1) (40 # 1) (180 # 1)]).
  - reflexivity.
  - reflexivity.
  - constructor.
  - repeat constructor. vm_compute. discriminate.
Defined.

(** ** get_positive_digits *)

Lemma codepoints_String (a : ascii) (s : string) :
  codepoints (String a s) = N_of_ascii a :: codepoints s.
Proof. reflexivity. Qed.

Lemma codepoints_length (s : string) :
  List.length (codepoints s) = String.length s.
Proof.
  induction s as [|a s IH]; simpl; [reflexivity|].
  unfold codepoints in *. simpl. rewrite IH. reflexivity.
Qed.

Section PositiveDigitsFacts.

Variable decimal_value : N -> option Z.
Variable int_max_str_digits : nat.

(** The ASCII digits are decimal digits with their usual values, and the
    minus sign is not one. *)
Hypothesis ascii_digits :
  forall k, (k < 10)%N -> decimal_value (48 + k) = Some (Z.of_N k).
Hypothesis minus_sign : decimal_value 45 = None.

Local Abbreviation step :=
  (fun (acc : Z) (c : N) =>
     (10 * acc + match decimal_value c with
                 | Some k => k
                 | None => 0
                 end)%Z).

Lemma step_digit (a : ascii) (k : N) (s : string) (acc : Z) :
  (k < 10)%N -> N_of_ascii a = (48 + k)%N ->
  fold_left step (codepoints (String a s)) acc
  = fold_left step (codepoints s) (10 * acc + Z.of_N k)%Z.
Proof.
  intros Hk Ha. rewrite codepoints_String. cbn [fold_left].
  rewrite Ha, (ascii_digits k Hk). reflexivity.
Qed.

Lemma filter_digit (a : ascii) (k : N) (s : string) :
  (k < 10)%N -> N_of_ascii a = (48 + k)%N ->
  re_sub_non_digits decimal_value (codepoints (String a s))
  = N_of_ascii a :: re_sub_non_digits decimal_value (codepoints s).
Proof.
  intros Hk Ha. rewrite codepoints_String. unfold re_sub_non_digits.
  cbn [filter]. unfold is_decimal at 1. rewrite Ha, (ascii_digits k Hk).
  reflexivity.
Qed.

Lemma uint_digits_kept (u : Decimal.uint) :
  re_sub_non_digits decimal_value (codepoints (NilEmpty.string_of_uint u))
  = codepoints (NilEmpty.string_of_uint u).
Proof.
  induction u as [|u IH|u IH|u IH|u IH|u IH|u IH|u IH|u IH|u IH|u IH];
    cbn [NilEmpty.string_of_uint]; [reflexivity|..].
  - rewrite (filter_digit _ 0%N) by (reflexivity || lia). rewrite IH. reflexivity.
  - rewrite (filter_digit _ 1%N) by (reflexivity || lia). rewrite IH. reflexivity.
  - rewrite (filter_digit _ 2%N) by (reflexivity || lia). rewrite IH. reflexivity.
  - rewrite (filter_digit _ 3%N) by (reflexivity || lia). rewrite IH. reflexivity.
  - rewrite (filter_digit _ 4%N) by (reflexivity || lia). rewrite IH. reflexivity.
  - rewrite (filter_digit _ 5%N) by (reflexivity || lia). rewrite IH. reflexivity.
  - rewrite (filter_digit _ 6%N) by (reflexivity || lia). rewrite IH. reflexivity.
  - rewrite (filter_digit _ 7%N) by (reflexivity || lia). rewrite IH. reflexivity.
  - rewrite (filter_digit _ 8%N) by (reflexivity || lia). rewrite IH. reflexivity.
  - rewrite (filter_digit _ 9%N) by (reflexivity || lia). rewrite IH. reflexivity.
Qed.

Lemma uint_value_acc (u : Decimal.uint) (p : positive) :
  fold_left step (codepoints (NilEmpty.string_of_uint u)) (Z.pos p)
  = Z.pos (Pos.of_uint_acc u p).
Proof.
  revert p.
  induction u as [|u IH|u IH|u IH|u IH|u IH|u IH|u IH|u IH|u IH|u IH];
    intros p; cbn [NilEmpty.string_of_uint Pos.of_uint_acc]; [reflexivity|..].
  - rewrite (step_digit _ 0%N) by (reflexivity || lia). rewrite <- IH. f_equal; lia.
  - rewrite (step_digit _ 1%N) by (reflexivity || lia). rewrite <- IH. f_equal; lia.
  - rewrite (step_digit _ 2%N) by (reflexivity || lia). rewrite <- IH. f_equal; lia.
  - rewrite (step_digit _ 3%N) by (reflexivity || lia). rewrite <- IH. f_equal; lia.
  - rewrite (step_digit _ 4%N) by (reflexivity || lia). rewrite <- IH. f_equal; lia.
  - rewrite (step_digit _ 5%N) by (reflexivity || lia). rewrite <- IH. f_equal; lia.
  - rewrite (step_digit _ 6%N) by (reflexivity || lia). rewrite <- IH. f_equal; lia.
  - rewrite (step_digit _ 7%N) by (reflexivity || lia). rewrite <- IH. f_equal; lia.
  - rewrite (step_digit _ 8%N) by (reflexivity || lia). rewrite <- IH. f_equal; lia.
  - rewrite (step_digit _ 9%N) by (reflexivity || lia). rewrite <- IH. f_equal; lia.
Qed.

Lemma uint_value (u : Decimal.uint) :
  digits_value decimal_value (codepoints (NilEmpty.string_of_uint u))
  = Z.of_N (Pos.of_uint u).
Proof.
  unfold digits_value.
  induction u as [|u IH|u IH|u IH|u IH|u IH|u IH|u IH|u IH|u IH|u IH];
    cbn [NilEmpty.string_of_uint Pos.of_uint]; [reflexivity|..].
  - rewrite (step_digit _ 0%N) by (reflexivity || lia). exact IH.
  - rewrite (step_digit _ 1%N) by (reflexivity || lia). apply uint_value_acc.
  - rewrite (step_digit _ 2%N) by (reflexivity || lia). apply uint_value_acc.
  - rewrite (step_digit _ 3%N) by (reflexivity || lia). apply uint_value_acc.
  - rewrite (step_digit _ 4%N) by (reflexivity || lia). apply uint_value_acc.
  - rewrite (step_digit _ 5%N) by (reflexivity || lia). apply uint_value_acc.
  - rewrite (step_digit _ 6%N) by (reflexivity || lia). apply uint_value_acc.
  - rewrite (step_digit _ 7%N) by (reflexivity || lia). apply uint_value_acc.
  - rewrite (step_digit _ 8%N) by (reflexivity || lia). apply uint_value_acc.
  - rewrite (step_digit _ 9%N) by (reflexivity || lia). apply uint_value_acc.
Qed.

Lemma get_positive_digits_uint (u : Decimal.uint) (sign : pystr)
      (err : option Z) :
  u <> Decimal.Nil ->
  re_sub_non_digits decimal_value sign = [] ->
  int_max_str_digits = 0 \/
  String.length (NilEmpty.string_of_uint u) <= int_max_str_digits ->
  get_positive_digits decimal_value int_max_str_digits
    (Some (sign ++ codepoints (NilEmpty.string_of_uint u))) err
  = Some (Z.of_N (Pos.of_uint u)).
Proof.
  intros Hu Hsign Hlimit. unfold get_positive_digits.
  unfold re_sub_non_digits in *. rewrite filter_app, Hsign. simpl app.
  fold (re_sub_non_digits decimal_value (codepoints (NilEmpty.string_of_uint u))).
  rewrite uint_digits_kept. unfold int_of_digits.
  rewrite codepoints_length, <- (uint_value u).
  destruct (codepoints (NilEmpty.string_of_uint u)) as [|c d] eqn:Hd.
  - destruct u; try congruence; discriminate Hd.
  - replace ((0 <? int_max_str_digits)
             && (int_max_str_digits
                 <? String.length (NilEmpty.string_of_uint u)))
      with false; [reflexivity|].
    symmetry. apply andb_false_iff.
    destruct Hlimit as [-> | Hle]; [left; reflexivity|].
    right. apply Nat.ltb_ge. exact Hle.
Qed.

Lemma format_d_pos (p : positive) :
  format_d (Z.pos p) = NilEmpty.string_of_uint (Pos.to_uint p).
Proof.
  unfold format_d. cbn [Z.to_int NilZero.string_of_int].
  pose proof (DecimalPos.Unsigned.to_uint_nonnil p) as Hn.
  destruct (Pos.to_uint p); [congruence | reflexivity ..].
Qed.

(** X25. [get_positive_digits] reads back the absolute value of an integer
    printed with ['%d']: the sign is dropped and the digits give the number,
    provided the number has no more digits than [int] accepts. *)
Theorem get_positive_digits_of_format_d (n : Z) (err : option Z) :
  int_max_str_digits = 0 \/
  String.length (format_d (Z.abs n)) <= int_max_str_digits ->
  get_positive_digits decimal_value int_max_str_digits
    (Some (codepoints (format_d n))) err
  = Some (Z.abs n).
Proof.
  intros Hlimit. destruct n as [|p|p].
  - apply (get_positive_digits_uint (Decimal.D0 Decimal.Nil) [] err);
      [discriminate | reflexivity | exact Hlimit].
  - simpl Z.abs in *. rewrite format_d_pos in *.
    change (Some (Z.pos p)) with (Some (Z.of_N (N.pos p))).
    rewrite <- (DecimalPos.Unsigned.of_to p).
    apply (get_positive_digits_uint (Pos.to_uint p) [] err);
      [apply DecimalPos.Unsigned.to_uint_nonnil | reflexivity | exact Hlimit].
  - simpl Z.abs in *.
    assert (E : codepoints (format_d (Z.neg p))
                = [45%N] ++ codepoints (format_d (Z.pos p))) by reflexivity.
    rewrite E. rewrite format_d_pos in *.
    change (Some (Z.pos p)) with (Some (Z.of_N (N.pos p))).
    rewrite <- (DecimalPos.Unsigned.of_to p).
    apply (get_positive_digits_uint (Pos.to_uint p) [45%N] err);
      [apply DecimalPos.Unsigned.to_uint_nonnil | | exact Hlimit].
    unfold re_sub_non_digits. cbn [filter]. unfold is_decimal.
    rewrite minus_sign. reflexivity.
Qed.

End PositiveDigitsFacts.

(** X26. [get_positive_digits] returns [err] when the string is [None] or
    holds no decimal digit; when it returns anything else, the string holds
    a digit and, the values of digits being non-negative, so is the result. *)
Theorem get_positive_digits_err (decimal_value : N -> option Z)
        (int_max_str_digits : nat) (v : option pystr) (err : option Z) :
  (forall c k, decimal_value c = Some k -> (0 <= k)%Z) ->
  (match v with
   | None => True
   | Some s => Forall (fun c => decimal_value c = None) s
   end ->
   get_positive_digits decimal_value int_max_str_digits v err = err) /\
  (forall r,
      get_positive_digits decimal_value int_max_str_digits v err = Some r ->
      err = Some r \/
      ((0 <= r)%Z /\
       exists s c, v = Some s /\ In c s /\ decimal_value c <> None)).
Proof.
  intros Hrange. split.
  - destruct v as [s|]; [|reflexivity]. intros Hnone. simpl.
    replace (re_sub_non_digits decimal_value s) with (@nil N); [reflexivity|].
    symmetry. unfold re_sub_non_digits.
    induction Hnone as [|c s Hc _ IH]; simpl; [reflexivity|].
    unfold is_decimal at 1. rewrite Hc. exact IH.
  - intros r E. destruct v as [s|]; simpl in E; [|auto].
    destruct (int_of_digits decimal_value int_max_str_digits
                (re_sub_non_digits decimal_value s)) as [n|] eqn:Hi; [|auto].
    injection E as ->. right. unfold int_of_digits in Hi.
    destruct (re_sub_non_digits decimal_value s) as [|c d] eqn:Hd;
      [discriminate|].
    destruct (_ && _); [discriminate|]. injection Hi as <-. split.
    + unfold digits_value.
      assert (Hfold : forall l acc, (0 <= acc)%Z ->
                 (0 <= fold_left
                         (fun acc c => 10 * acc
                            + match decimal_value c with
                              | Some k => k
                              | None => 0
                              end) l acc)%Z).
      { induction l as [|c' l IH]; cbn [fold_left]; intros acc Hacc;
          [exact Hacc|].
        apply IH. destruct (decimal_value c') as [k|] eqn:Hk.
        - specialize (Hrange c' k Hk). lia.
        - lia. }
      apply Hfold. lia.
    + exists s, c. split; [reflexivity|].
      assert (Hin : In c (re_sub_non_digits decimal_value s))
        by (rewrite Hd; left; reflexivity).
      unfold re_sub_non_digits in Hin. apply filter_In in Hin as (Hin & Hdec).
      split; [exact Hin|]. unfold is_decimal in Hdec.
      destruct (decimal_value c); [discriminate | discriminate Hdec].
Qed.

Lemma get_positive_digits_of_format_d_witness :
  get_positive_digits ascii_decimal 4300 (Some (codepoints (format_d (-120)))) None
  = Some (Z.abs (-120)).
Proof.
  apply (get_positive_digits_of_format_d ascii_decimal 4300).
  - intros k Hk. unfold ascii_decimal.
    destruct (N.leb_spec 48 (48 + k)), (N.leb_spec (48 + k) 57); cbn [andb];
      [f_equal; lia | exfalso; lia | exfalso; lia | exfalso; lia].
  - reflexivity.
  - right. vm_compute. lia.
Defined.

Lemma get_positive_digits_err_witness :
  (match Some [120; 45; 121]%N with
   | None => True
   | Some s => Forall (fun c => ascii_decimal c = None) s
   end ->
   get_positive_digits ascii_decimal 4300 (Some [120; 45; 121]%N) (Some 7%Z)
   = Some 7%Z) /\
  (forall r,
      get_positive_digits ascii_decimal 4300 (Some [120; 45; 121]%N) (Some 7%Z)
      = Some r ->
      Some 7%Z = Some r \/
      ((0 <= r)%Z /\
       exists s c, Some [120; 45; 121]%N = Some s /\ In c s /\
                   ascii_decimal c <> None)).
Proof.
  apply (get_positive_digits_err ascii_decimal 4300).
  intros c k. unfold ascii_decimal.
  destruct (N.leb_spec 48 c), (N.leb_spec c 57); cbn [andb];
    try discriminate.
  intros E. injection E as <-. lia.
Defined.

(** Examples: digits among other characters, and a string without digits. *)
Example get_positive_digits_examples :
  get_positive_digits ascii_decimal 4300
    (Some (codepoints "x12y-3")) (Some 0%Z) = Some 123%Z /\
  get_positive_digits ascii_decimal 4300
    (Some (codepoints "none")) (Some 0%Z) = Some 0%Z /\
  get_positive_digits ascii_decimal 4300 None None = None.
Proof. repeat split; reflexivity. Qed.

Lemma get_sp_type_in_rect_groups_witness :
  exists d key sp_list,
    REGION_2_SP = Ok d /\ get_pr_id P02_R06 = Ok key /\
    dict_lookup d key = Some sp_list /\
    NoDup (map fst [("mm_tp_03", [P02_R06_SP01]); ("mm_sp_02", [P02_R06_SP04])]%string) /\
    forall k,
      dict_lookup [("mm_tp_03", [P02_R06_SP01]); ("mm_sp_02", [P02_R06_SP04])]%string k =
      match filter (fun sp =>
                      in_rect_or_all (fun (pos : Z * Z) (r : Z) => (fst pos <? r)%Z)
                                     (Some 500%Z) sp
                      && String.eqb (TransportPoint.template_id sp) k) sp_list with
      | [] => None
      | g => Some g
      end.
Proof.
  apply (get_sp_type_in_rect_groups Z
           (fun (pos : Z * Z) (r : Z) => (fst pos <? r)%Z) P02_R06 (Some 500%Z)).
  vm_compute. reflexivity.
Defined.

(** ** join_dir_path_with_mk *)

Section FileSystemFacts.

Variable path_join : string -> string -> string.
Variable mkdir_possible : list string -> string -> bool.

Local Abbreviation exists_in := os_path_exists.
Local Abbreviation loop := (join_dir_loop path_join mkdir_possible).
Local Abbreviation joined := (joined_paths path_join).

Lemma os_path_exists_In (fs : list string) (path : string) :
  os_path_exists fs path = true <-> In path fs.
Proof.
  unfold os_path_exists. rewrite existsb_exists. split.
  - intros (q & Hq & E). apply String.eqb_eq in E. subst. exact Hq.
  - intros H. exists path. split; [exact H | apply String.eqb_refl].
Qed.

Lemma join_dir_loop_step (fs : list string) (path sub : string)
      (subs : list string) :
  let target := path_join path sub in
  (In target fs /\ loop fs path (sub :: subs) = loop fs target subs) \/
  (~ In target fs /\ mkdir_possible fs target = true /\
   loop fs path (sub :: subs) = loop (target :: fs) target subs) \/
  (~ In target fs /\ mkdir_possible fs target = false /\
   loop fs path (sub :: subs) = (fs, Throws OSError)).
Proof.
  simpl. unfold os_mkdir.
  destruct (os_path_exists fs (path_join path sub)) eqn:He; simpl.
  - left. apply os_path_exists_In in He. auto.
  - right.
    assert (Hn : ~ In (path_join path sub) fs).
    { intros H. apply os_path_exists_In in H. congruence. }
    destruct (mkdir_possible fs (path_join path sub)); auto.
Qed.

Lemma join_dir_loop_incl (fs : list string) (path : string)
      (subs : list string) (fs' : list string) (o : outcome string) :
  loop fs path subs = (fs', o) -> incl fs fs'.
Proof.
  revert fs path; induction subs as [|sub subs IH]; intros fs path E.
  - simpl in E. injection E as <- <-. apply incl_refl.
  - destruct (join_dir_loop_step fs path sub subs)
      as [(Hin & Hl) | [(Hn & Hm & Hl) | (Hn & Hm & Hl)]]; rewrite Hl in E.
    + exact (IH _ _ E).
    + intros q Hq. apply (IH _ _ E). right. exact Hq.
    + injection E as <- <-. apply incl_refl.
Qed.

(** X27. [join_dir_path_with_mk] never removes anything and creates nothing
    but the joined paths, whether it returns or raises: the paths that
    existed before still exist afterwards, and every new path is one of the
    paths obtained by joining the sub-directories one after the other. When
    it returns, it returns the last of these paths, and all of them exist. *)
Theorem join_dir_path_with_mk_effect (fs : list string) (path : string)
        (subs : list string) (fs' : list string) (o : outcome string) :
  join_dir_path_with_mk path_join mkdir_possible fs path subs = (fs', o) ->
  incl fs fs' /\
  (forall q, In q fs' -> In q fs \/ In q (joined path subs)) /\
  (forall result,
      o = Returns result ->
      result = fold_left path_join subs path /\
      Forall (fun q => In q fs') (joined path subs)).
Proof.
  unfold join_dir_path_with_mk. intros E.
  split; [exact (join_dir_loop_incl _ _ _ _ _ E)|].
  revert fs path E; induction subs as [|sub subs IH]; intros fs path E.
  - simpl in E. injection E as <- <-. split; [auto|].
    intros result R. injection R as <-. split; [reflexivity | constructor].
  - destruct (join_dir_loop_step fs path sub subs)
      as [(Hin & Hl) | [(Hn & Hm & Hl) | (Hn & Hm & Hl)]]; rewrite Hl in E.
    + destruct (IH _ _ E) as (Hnew & Hret). split.
      * intros q Hq. destruct (Hnew q Hq); simpl; auto.
      * intros result R. destruct (Hret result R) as (Hr & Hall).
        split; [exact Hr|]. simpl. constructor; [|exact Hall].
        apply (join_dir_loop_incl _ _ _ _ _ E). exact Hin.
    + destruct (IH _ _ E) as (Hnew & Hret). split.
      * intros q Hq. destruct (Hnew q Hq) as [[<- | H] | H]; simpl; auto.
      * intros result R. destruct (Hret result R) as (Hr & Hall).
        split; [exact Hr|]. simpl. constructor; [|exact Hall].
        apply (join_dir_loop_incl _ _ _ _ _ E). left. reflexivity.
    + injection E as <- <-. split; [auto | discriminate].
Qed.

(** X28. [join_dir_path_with_mk] can be repeated: called again with the
    same arguments after it has returned, it returns the same path and
    changes nothing. *)
Theorem join_dir_path_with_mk_again (fs : list string) (path : string)
        (subs : list string) (fs' : list string) (result : string) :
  join_dir_path_with_mk path_join mkdir_possible fs path subs
  = (fs', Returns result) ->
  join_dir_path_with_mk path_join mkdir_possible fs' path subs
  = (fs', Returns result).
Proof.
  unfold join_dir_path_with_mk.
  revert fs path; induction subs as [|sub subs IH]; intros fs path E.
  - simpl in *. injection E as _ <-. reflexivity.
  - assert (Hnext : forall fs0,
               In (path_join path sub) fs0 ->
               loop fs0 (path_join path sub) subs = (fs', Returns result) ->
               loop fs' path (sub :: subs) = (fs', Returns result)).
    { intros fs0 Hin E0.
      assert (Hin' : In (path_join path sub) fs')
        by (apply (join_dir_loop_incl _ _ _ _ _ E0); exact Hin).
      destruct (join_dir_loop_step fs' path sub subs)
        as [(_ & Hl) | [(Hn & _) | (Hn & _)]]; try contradiction.
      rewrite Hl. exact (IH _ _ E0). }
    destruct (join_dir_loop_step fs path sub subs)
      as [(Hin & Hl) | [(Hn & Hm & Hl) | (Hn & Hm & Hl)]]; rewrite Hl in E.
    + exact (Hnext fs Hin E).
    + apply (Hnext (path_join path sub :: fs)); [left; reflexivity | exact E].
    + discriminate E.
Qed.

End FileSystemFacts.

Lemma join_dir_path_with_mk_effect_witness :
  incl ["w"; "w/a"]%string ["w/a/b/c"; "w/a/b"; "w"; "w/a"]%string /\
  (forall q, In q ["w/a/b/c"; "w/a/b"; "w"; "w/a"]%string ->
             In q ["w"; "w/a"]%string \/
             In q (joined_paths slash_join "w" ["a"; "b"; "c"]%string)) /\
  (forall result,
      Returns "w/a/b/c"%string = Returns result ->
      result = fold_left slash_join ["a"; "b"; "c"]%string "w"%string /\
      Forall (fun q => In q ["w/a/b/c"; "w/a/b"; "w"; "w/a"]%string)
             (joined_paths slash_join "w" ["a"; "b"; "c"]%string)).
Proof.
  apply (join_dir_path_with_mk_effect slash_join all_but_denied
           ["w"; "w/a"]%string "w"%string ["a"; "b"; "c"]%string).
  reflexivity.
Defined.

Lemma join_dir_path_with_mk_again_witness :
  join_dir_path_with_mk slash_join all_but_denied
    ["w/a/b/c"; "w/a/b"; "w"; "w/a"]%string "w"%string ["a"; "b"; "c"]%string
  = (["w/a/b/c"; "w/a/b"; "w"; "w/a"]%string, Returns "w/a/b/c"%string).
Proof.
  apply (join_dir_path_with_mk_again slash_join all_but_denied
           ["w"; "w/a"]%string "w"%string ["a"; "b"; "c"]%string).
  reflexivity.
Defined.

(** A failure half-way: the directory created before it stays. *)
Example join_dir_path_with_mk_failure :
  join_dir_path_with_mk slash_join all_but_denied
    ["w"]%string "w"%string ["x"; "denied"; "y"]%string
  = (["w/x"; "w"]%string, Throws OSError).
Proof. reflexivity. Qed.

(** ** binary_with_white_alpha *)

Lemma Forall2_nth_error {A B : Type} (R : A -> B -> Prop) (l : list A)
      (l' : list B) (i : nat) (a : A) :
  Forall2 R l l' -> nth_error l i = Some a ->
  exists b, nth_error l' i = Some b /\ R a b.
Proof.
  intros H. revert i. induction H as [|x y l l' Hxy _ IH]; intros [|i] E;
    simpl in *; try discriminate.
  - injection E as <-. eauto.
  - exact (IH i E).
Qed.

Lemma white_where_zero_row_spec (alpha gray out : list Z) :
  white_where_zero_row alpha gray = Ok out ->
  Forall2 (fun a v => v = if (a =? 0)%Z then 255%Z else v) alpha out.
Proof.
  revert gray out; induction alpha as [|a alpha IH]; intros [|g gray] out E;
    simpl in E; try discriminate.
  - injection E as <-. constructor.
  - apply bind_Ok_inv in E as (rest & Hrest & E). injection E as <-.
    constructor; [|exact (IH _ _ Hrest)].
    destruct (a =? 0)%Z; reflexivity.
Qed.

Lemma white_where_zero_spec (alpha gray out : list (list Z)) :
  white_where_zero alpha gray = Ok out ->
  Forall2 (Forall2 (fun a v => v = if (a =? 0)%Z then 255%Z else v)) alpha out.
Proof.
  revert gray out; induction alpha as [|arow alpha IH]; intros [|grow gray] out E;
    simpl in E; try discriminate.
  - injection E as <-. constructor.
  - apply bind_Ok_inv in E as (row & Hrow & E).
    apply bind_Ok_inv in E as (rest & Hrest & E). injection E as <-.
    constructor; [exact (white_where_zero_row_spec _ _ _ Hrow)|].
    exact (IH _ _ Hrest).
Qed.

(** X29. What [binary_with_white_alpha] returns is a black and white image
    of the size of the input: every entry is 0 or 255, there is one entry
    per pixel, and a fully transparent pixel (alpha 0) comes out white, 255,
    for every threshold below 255. *)
Theorem binary_with_white_alpha_spec cvtColor (image : Image) (thresh : Z)
        (binary : list (list Z)) :
  binary_with_white_alpha cvtColor image thresh = Ok binary ->
  Forall (Forall (fun v => v = 0 \/ v = 255)%Z) binary /\
  Forall2 (fun row brow => List.length row = List.length brow) image binary /\
  forall r c px,
    index2 image r c = Ok px -> nth_error px 3 = Some 0%Z ->
    (thresh < 255)%Z ->
    index2 binary r c = Ok 255%Z.
Proof.
  unfold binary_with_white_alpha. intros E.
  apply bind_Ok_inv in E as (alpha & Ha & E).
  apply bind_Ok_inv in E as (gray & _ & E).
  apply bind_Ok_inv in E as (gray' & Hw & E). injection E as <-.
  apply white_where_zero_spec in Hw.
  unfold channel in Ha. apply mapM_Forall2 in Ha.
  assert (Hrows : Forall2 (Forall2 (fun (px : Pixel) v =>
                     nth_error px 3 = Some 0%Z -> v = 255%Z)) image gray').
  { clear - Ha Hw. revert gray' Hw.
    induction Ha as [|row arow image alpha Hrow _ IH]; intros gray' Hw;
      inversion Hw as [|? grow ? gray'' Hg Hw']; subst; constructor.
    - apply mapM_Forall2 in Hrow. clear - Hrow Hg. revert grow Hg.
      induction Hrow as [|px a row arow Hpx _ IH]; intros grow Hg;
        inversion Hg as [|? v ? grow' Hv Hg']; subst; constructor.
      + intros H0. rewrite H0 in Hpx. injection Hpx as <-. exact Hv.
      + exact (IH _ Hg').
    - exact (IH _ Hw'). }
  clear Ha Hw alpha gray. unfold cv2_threshold_binary.
  split; [|split].
  - apply Forall_map, Forall_forall. intros row _.
    apply Forall_map, Forall_forall. intros v _.
    destruct (thresh <? v)%Z; auto.
  - clear - Hrows.
    induction Hrows as [|row grow image gray' Hrow _ IH]; simpl; constructor;
      [|exact IH].
    rewrite length_map. eapply Forall2_length. exact Hrow.
  - intros r c px Hpx H0 Ht. unfold index2 in *.
    destruct (nth_error image r) as [row|] eqn:Hr; [|discriminate].
    destruct (nth_error row c) as [px'|] eqn:Hc; [|discriminate].
    injection Hpx as ->.
    destruct (Forall2_nth_error _ _ _ _ _ Hrows Hr) as (grow & Hgr & Hrow).
    destruct (Forall2_nth_error _ _ _ _ _ Hrow Hc) as (v & Hv & Hpxv).
    rewrite nth_error_map, Hgr. simpl. rewrite nth_error_map, Hv. simpl.
    rewrite (Hpxv H0).
    destruct (Z.ltb_spec thresh 255); [reflexivity | lia].
Qed.

Lemma binary_with_white_alpha_spec_witness :
  Forall (Forall (fun v => v = 0 \/ v = 255)%Z) [[255; 0]]%Z /\
  Forall2 (fun (row : list Pixel) (brow : list Z) =>
             List.length row = List.length brow)
          two_pixels_bgra [[255; 0]]%Z /\
  forall r c px,
    index2 two_pixels_bgra r c = Ok px -> nth_error px 3 = Some 0%Z ->
    (70 < 255)%Z ->
    index2 [[255; 0]]%Z r c = Ok 255%Z.
Proof.
  apply (binary_with_white_alpha_spec third_channel two_pixels_bgra 70).
  reflexivity.
Defined.
